(** * weatherlayers-gl: [src/deck/_utils/texture-data.ts]

    A shallow embedding of the texture loading module: the nodata masker
    [maskData], the two decoders [loadImage] and [loadGeotiff], the memoizing
    wrapper [loadCached] and its two instances [loadTextureData] and
    [loadJson].

    - JS numbers are binary64 floats ([PrimFloat.float]); typed arrays are
      lists of their elements, held in a store so that reference equality of
      two arrays can be stated.
    - [Map] objects are cells of one finite map keyed by (map identity, key).
    - Promises live in a heap; [.then] callbacks and the microtask queue are
      explicit, and the event loop is a labelled step function.
    - The browser and the geotiff library are oracles: records of functions
      that give the result of every external call. *)

From Stdlib Require Import ZArith String Ascii List PrimFloat Uint63.
From stdpp Require Import base option list gmap strings pretty.

Local Open Scope string_scope.
Local Open Scope list_scope.
Set Warnings "-register-all".

(** ** JavaScript values *)

Module Js.

(** A thrown value: an [Error] built by this module (with its optional
    [cause]), a [TypeError] raised by the runtime, or a failure of an external
    collaborator, which this module never inspects. *)
Inductive Thrown : Type :=
| Error (message : string) (cause : option Thrown)
| TypeError (message : string)
| External (what : string).

Abbreviation Headers := (gmap string string).

(** [TextureDataArray = Uint8Array | Uint8ClampedArray | Float32Array].
    Byte elements are integers in [0, 256); float elements are the binary64
    images of binary32 values. *)
Inductive TextureDataArray : Type :=
| Uint8Array (elts : list Z)
| Uint8ClampedArray (elts : list Z)
| Float32Array (elts : list float).

(** Typed arrays are objects: a [Ref] is the identity of one of them. *)
Abbreviation Ref := nat.

Record TextureData : Type := mkTextureData {
  data : Ref;
  width : Z;
  height : Z
}.

(** What a loader can resolve to: a texture or any JSON document. *)
Inductive Value : Type :=
| VUndefined
| VNull
| VBool (b : bool)
| VNumber (x : float)
| VString (s : string)
| VArray (items : list Value)
| VObject (fields : list (string * Value))
| VTexture (t : TextureData).

(** [ToBoolean]: what [if (x)] tests. *)
Definition truthy (v : Value) : bool :=
  match v with
  | VUndefined | VNull => false
  | VBool b => b
  | VNumber x => negb (PrimFloat.eqb x 0 || PrimFloat.is_nan x)
  | VString s => negb (String.eqb s "")
  | VArray _ | VObject _ | VTexture _ => true
  end.

(** The completion of a synchronous call. *)
Inductive Completion (A : Type) : Type :=
| Return (a : A)
| Throw (e : Thrown).
Arguments Return {A} a.
Arguments Throw {A} e.

(** [s.startsWith(needle)] and [s.includes(needle)]. *)
Fixpoint startsWith (s needle : string) {struct needle} : bool :=
  match needle, s with
  | EmptyString, _ => true
  | String c n', String d s' => Ascii.eqb c d && startsWith s' n'
  | String _ _, EmptyString => false
  end.

Fixpoint includes (s needle : string) : bool :=
  startsWith s needle ||
  match s with
  | EmptyString => false
  | String _ s' => includes s' needle
  end.

End Js.
Import Js.

(** ** Nodata masker: [maskData] *)

Module TypedArray.

Abbreviation Store := (list TextureDataArray).

(** [new] typed array: a fresh reference. *)
Definition alloc (a : TextureDataArray) (st : Store) : Ref * Store :=
  (List.length st, st ++ [a]).

Definition byteToNumber (z : Z) : float := PrimFloat.of_uint63 (Uint63.of_Z z).

Definition length (a : TextureDataArray) : nat :=
  match a with
  | Uint8Array l | Uint8ClampedArray l => List.length l
  | Float32Array l => List.length l
  end.

(** [a[i]] read as a number. *)
Definition get (a : TextureDataArray) (i : nat) : option float :=
  match a with
  | Uint8Array l | Uint8ClampedArray l => byteToNumber <$> l !! i
  | Float32Array l => l !! i
  end.

(** [a[i] = NaN]: a float array stores NaN; the integer arrays store
    ToUint8(NaN) = ToUint8Clamp(NaN) = 0. *)
Definition setNaN (a : TextureDataArray) (i : nat) : TextureDataArray :=
  match a with
  | Uint8Array l => Uint8Array (<[i := 0%Z]> l)
  | Uint8ClampedArray l => Uint8ClampedArray (<[i := 0%Z]> l)
  | Float32Array l => Float32Array (<[i := PrimFloat.nan]> l)
  end.

Definition isFloat32 (a : TextureDataArray) : bool :=
  match a with Float32Array _ => true | _ => false end.

End TypedArray.

(** [Number.EPSILON] is 2^-52. *)
Definition EPSILON : float := 0x1p-52%float.

(** The test of line 35: [Math.abs(x - nodata) < Number.EPSILON * 2]. *)
Definition nearNodata (x nodata : float) : bool :=
  PrimFloat.ltb (PrimFloat.abs (PrimFloat.sub x nodata)) (PrimFloat.mul EPSILON 2).

(** The loop of lines 34-38, [n] iterations left, at index [i]. *)
Fixpoint maskLoop (nodata : float) (n i : nat) (maskedData : TextureDataArray)
  : TextureDataArray :=
  match n with
  | O => maskedData
  | S n' =>
      let maskedData' :=
        match TypedArray.get maskedData i with
        | Some x => if nearNodata x nodata then TypedArray.setNaN maskedData i
                    else maskedData
        | None => maskedData
        end in
      maskLoop nodata n' (S i) maskedData'
  end.

(** [maskData(data, nodata)]: the same reference when [nodata] is
    null or undefined, else a masked copy ([data.slice(0)]) in a new array.
    [None] only for a reference that names no array. *)
Definition maskData (st : TypedArray.Store) (data : Ref) (nodata : option float)
  : option (Ref * TypedArray.Store) :=
  match nodata with
  | None => Some (data, st)
  | Some s =>
      a ← st !! data;
      Some (TypedArray.alloc (maskLoop s (TypedArray.length a) 0 a) st)
  end.

(** ** The external world of the decoders *)

Module Env.

Definition Blob := nat.

(** What [fetch] resolves to; [blob] and [json] are the results of awaiting
    [response.blob()] and [response.json()]. *)
Record Response : Type := mkResponse {
  ok : bool;
  statusText : string;
  blob : Thrown + Blob;
  json : Thrown + Value
}.

Record ImageData : Type := mkImageData {
  pixels : list Z;
  imageWidth : Z;
  imageHeight : Z
}.

(** The browser: every field answers one external call of [loadImage] or of
    the JSON loader. [getContext2d w h = false] is [canvas.getContext('2d')]
    returning null (its declared type is nullable; line 75 asserts it away);
    [getImageData] stands for [drawImage] followed by [getImageData]. *)
Record Browser : Type := mkBrowser {
  fetch : string -> option Headers -> Thrown + Response;
  createObjectURL : Blob -> string;
  decode : string -> Thrown + (Z * Z);
  getContext2d : Z -> Z -> bool;
  getImageData : string -> Z -> Z -> Thrown + ImageData
}.

Inductive Event : Type :=
| CreateObjectURL (u : string)
| RevokeObjectURL (u : string).

#[global] Instance Event_eq_dec : EqDecision Event.
Proof. solve_decision. Defined.

Definition Handle := nat.
Definition GeoImage := nat.

(** [init.headers] of a request, a [HeadersInit]: a plain object, a
    [Headers] instance, or an array of arrays of strings. *)
Inductive HeadersInit : Type :=
| InitRecord (entries : gmap string string)
| InitHeaders (entries : gmap string string)
| InitPairs (pairs : list (list string)).

(** A property value of the merged headers object: a string, or (from an
    array that was spread) an array of strings. *)
Inductive HeaderValue : Type :=
| Text (s : string)
| Items (items : list string).

(** The options object given to [GeoTIFF.fromUrl]; [fetch], when present,
    is the custom fetch, told by the headers object it passes to [fetch] for
    the [init.headers] it is called with ([None]: no [init], or no headers
    in it). *)
Record FromUrlOptions : Type := mkFromUrlOptions {
  allowFullFile : bool;
  blockSize : Z;
  optFetch : option (option HeadersInit -> gmap string HeaderValue)
}.

(** What [readRasters] resolves to: one of the three array kinds the module
    accepts, or another typed array (Uint16Array, Float64Array, ...). *)
Inductive Raster : Type :=
| Supported (a : TextureDataArray)
| OtherTypedArray (kind : string).

(** The geotiff library behind [getLibrary('geotiff')]. *)
Record GeotiffLib : Type := mkGeotiffLib {
  getLibrary : Thrown + unit;
  fromUrl : string -> FromUrlOptions -> Thrown + Handle;
  getImage : Handle -> Z -> Thrown + GeoImage;
  readRasters : GeoImage -> Thrown + Raster;
  getGDALNoData : GeoImage -> option float;
  getWidth : GeoImage -> Z;
  getHeight : GeoImage -> Z
}.

(** The state an async function body runs in: the typed-array store and the
    object-URL events so far. *)
Record World : Type := mkWorld {
  store : TypedArray.Store;
  events : list Event
}.

(** An async function body run to its settlement: [inl e] is a rejection. *)
Definition Async (A : Type) : Type := World -> (Thrown + A) * World.

Definition ret {A} (a : A) : Async A := fun w => (inr a, w).
Definition throw {A} (e : Thrown) : Async A := fun w => (inl e, w).
Definition bind {A B} (c : Async A) (k : A -> Async B) : Async B :=
  fun w => match c w with
           | (inr a, w') => k a w'
           | (inl e, w') => (inl e, w')
           end.
(** [await p] for a promise the environment settles to [r]. *)
Definition await {A} (r : Thrown + A) : Async A := fun w => (r, w).
(** [try { body } catch (e) { handler(e) }]. *)
Definition tryCatch {A} (body : Async A) (handler : Thrown -> Async A) : Async A :=
  fun w => match body w with
           | (inr a, w') => (inr a, w')
           | (inl e, w') => handler e w'
           end.
Definition emit (e : Event) : Async unit :=
  fun w => (inr tt, mkWorld (store w) (events w ++ [e])).
Definition newArray (a : TextureDataArray) : Async Ref :=
  fun w => let '(r, st) := TypedArray.alloc a (store w) in (inr r, mkWorld st (events w)).
Definition when (b : bool) (c : Async unit) : Async unit :=
  if b then c else ret tt.

End Env.
Import Env.

Notation "'let!' x ':=' c 'in' k" := (Env.bind c (fun x => k))
  (at level 10, x pattern, c at level 100, k at level 200).

Definition MAX_SAFE_INTEGER : Z := 2 ^ 53 - 1.

(** ** Image decoder: [loadImage] (lines 43-85) *)

(** Lines 59-84: the part after the optional fetch. *)
Definition decodeImage (b : Browser) (url blobUrl : string) (revokeBlob : bool)
  : Async TextureData :=
  let! (w, h) :=
    tryCatch (await (decode b blobUrl))
      (fun e =>
         let! _ := when revokeBlob (emit (RevokeObjectURL blobUrl)) in
         throw (Error ("Image " +:+ url +:+ " can't be decoded.") (Some e))) in
  let! _ :=
    if getContext2d b w h then ret tt
    else throw (TypeError "Cannot read properties of null (reading 'drawImage')") in
  let! imageData := await (getImageData b blobUrl w h) in
  let! r := newArray (Uint8ClampedArray (pixels imageData)) in
  let! _ := when revokeBlob (emit (RevokeObjectURL blobUrl)) in
  ret (mkTextureData r (imageWidth imageData) (imageHeight imageData)).

Definition loadImage (b : Browser) (url : string) (headers : option Headers)
  : Async TextureData :=
  match headers with
  | Some hs =>
      let! response := await (fetch b url (Some hs)) in
      let! _ :=
        if negb (ok response)
        then throw (Error ("Failed to fetch image " +:+ url +:+ ": " +:+ statusText response) None)
        else ret tt in
      let! blob := await (blob response) in
      let blobUrl := createObjectURL b blob in
      let! _ := emit (CreateObjectURL blobUrl) in
      decodeImage b url blobUrl true
  | None => decodeImage b url url false
  end.

(** ** Raster decoder: [loadGeotiff] (lines 87-122) *)

(** [{...x}] for [x = init?.headers || {}]: the own enumerable properties
    of [x]. Those of a plain object are its entries; a [Headers] instance has
    none (its entries are not properties); those of an array are its indices,
    each holding one inner array. *)
Definition spreadInit (init : option HeadersInit) : gmap string HeaderValue :=
  match init with
  | None => ∅
  | Some (InitRecord entries) => Text <$> entries
  | Some (InitHeaders _) => ∅
  | Some (InitPairs pairs) =>
      list_to_map (imap (fun (i : nat) (items : list string) => (pretty i, Items items)) pairs)
  end.

(** Lines 93-96: [mergedHeaders = {...(init?.headers || {}), ...headers}].
    In a spread the later source wins, and property names are compared as
    they are written (case matters). *)
Definition customFetch (headers : Headers) : option HeadersInit -> gmap string HeaderValue :=
  fun init => (Text <$> headers) ∪ spreadInit init.

Definition loadGeotiff (g : GeotiffLib) (url : string) (headers : option Headers)
  : Async TextureData :=
  let! _ := await (getLibrary g) in
  let! geotiff :=
    tryCatch
      (match headers with
       | Some hs =>
           await (fromUrl g url (mkFromUrlOptions true MAX_SAFE_INTEGER (Some (customFetch hs))))
       | None =>
           await (fromUrl g url (mkFromUrlOptions true MAX_SAFE_INTEGER None))
       end)
      (fun e => throw (Error ("Image " +:+ url +:+ " can't be decoded.") (Some e))) in
  let! geotiffImage := await (getImage g geotiff 0) in
  let! raster := await (readRasters g geotiffImage) in
  match raster with
  | OtherTypedArray _ => throw (Error "Unsupported data format" None)
  | Supported a =>
      let! sourceData := newArray a in
      let nodata := getGDALNoData g geotiffImage in
      (* [sourceData] was just allocated, so [maskData] finds it: the [None]
         branch below is never taken (see [loadGeotiff_success]). *)
      let! data :=
        (fun w => match maskData (store w) sourceData nodata with
                  | Some (r, st) => (inr r, mkWorld st (events w))
                  | None => (inl (TypeError "dangling typed array"), w)
                  end) in
      ret (mkTextureData data (getWidth g geotiffImage) (getHeight g geotiffImage))
  end.

(** The body of the loader given to [loadCached] at line 154. *)
Definition fetchJson (b : Browser) (url : string) (headers : option Headers)
  : Async Value :=
  let! response := await (fetch b url headers) in
  await (json response).

(** ** Promises, [Map] caches and the memoizing wrapper *)

(** The async function a loader starts, with the arguments it was given. *)
Inductive Task : Type :=
| LoadImage (url : string) (headers : option Headers)
| LoadGeotiff (url : string) (headers : option Headers)
| FetchJson (url : string) (headers : option Headers).

(** A call of a [LoadFunction]: it throws before returning, or it returns the
    promise of the async function it started. *)
Inductive LoadResult : Type :=
| Throws (e : Thrown)
| Starts (t : Task).

(** The functions given to [loadCached] at lines 144 and 154 declare
    [(url, headers?)]. *)
Definition LoadFunction : Type := string -> option Headers -> LoadResult.

Abbreviation PromiseId := nat.
Abbreviation MapId := nat.

Inductive Settled : Type :=
| Fulfilled (v : Value)
| Rejected (e : Thrown).

(** [T | Promise<T>]: what a cache holds and what the wrapper returns. *)
Inductive Entry : Type :=
| Resolved (v : Value)
| InFlight (p : PromiseId).

(** [if (dataOrPromise)]: a promise is an object, hence truthy. *)
Definition entryTruthy (e : Entry) : bool :=
  match e with
  | Resolved v => truthy v
  | InFlight _ => true
  end.

(** The second argument of the wrapper as the runtime sees it: absent,
    [false], a [Map], or a plain string-to-string object (which the declared
    type [Map | false] does not admit, and the documented interface
    [(url, headers?, cache?)] puts there). *)
Inductive CacheArg : Type :=
| ArgUndefined
| ArgFalse
| ArgMap (m : MapId)
| ArgRecord (o : Headers).

(** - [promises]: every promise made by a loader, with its task and its
      state ([None] is pending);
    - [cells]: the contents of all [Map] objects;
    - [reactions]: the callbacks [data => cache.set(url, data)] registered by
      [.then] on promises still pending, each told by its captured
      [(cache, url)];
    - [jobs]: the microtask queue, callbacks ready to run with their argument;
    - [calls]: every invocation of a load function so far, with the arguments
      it received. *)
Record Heap : Type := mkHeap {
  promises : list (Task * option Settled);
  cells : gmap (MapId * string) Entry;
  reactions : list (PromiseId * (MapId * string));
  jobs : list ((MapId * string) * Value);
  calls : list (string * option Headers)
}.

Definition DEFAULT_CACHE : MapId := 0.

Definition emptyHeap : Heap := mkHeap [] ∅ [] [] [].

Definition promiseState (h : Heap) (p : PromiseId) : option (option Settled) :=
  snd <$> promises h !! p.

Definition Map_get (m : MapId) (key : string) (h : Heap) : option Entry :=
  cells h !! (m, key).

Definition Map_set (m : MapId) (key : string) (e : Entry) (h : Heap) : Heap :=
  mkHeap (promises h) (<[(m, key) := e]> (cells h)) (reactions h) (jobs h) (calls h).

(** [loadFunction(url)]: one argument, so the callee's [headers] is
    undefined. *)
Definition invoke (loadFunction : LoadFunction) (url : string) (h : Heap)
  : Completion PromiseId * Heap :=
  let log := calls h ++ [(url, None)] in
  match loadFunction url None with
  | Throws e => (Throw e, mkHeap (promises h) (cells h) (reactions h) (jobs h) log)
  | Starts t =>
      (Return (List.length (promises h)),
       mkHeap (promises h ++ [(t, None)]) (cells h) (reactions h) (jobs h) log)
  end.

(** [p.then(data => { cache.set(url, data) })]: no rejection handler. *)
Definition then_ (p : PromiseId) (k : MapId * string) (h : Heap) : Heap :=
  match promiseState h p with
  | Some None =>
      mkHeap (promises h) (cells h) (reactions h ++ [(p, k)]) (jobs h) (calls h)
  | Some (Some (Fulfilled v)) =>
      mkHeap (promises h) (cells h) (reactions h) (jobs h ++ [(k, v)]) (calls h)
  | Some (Some (Rejected _)) | None => h
  end.

(** The miss path of lines 135-140, for the map [m]. *)
Definition missPath (lf : LoadFunction) (url : string) (m : MapId) (h : Heap)
  : Completion Entry * Heap :=
  match invoke lf url h with
  | (Throw e, h1) => (Throw e, h1)
  | (Return dataPromise, h1) =>
      (Return (InFlight dataPromise),
       then_ dataPromise (m, url) (Map_set m url (InFlight dataPromise) h1))
  end.

(** The function returned by [loadCached(loadFunction)] (lines 125-141). *)
Definition loadCached (loadFunction : LoadFunction) (url : string) (cache : CacheArg)
    (h : Heap) : Completion Entry * Heap :=
  let cached (m : MapId) :=
    match Map_get m url h with
    | Some dataOrPromise =>
        if entryTruthy dataOrPromise then (Return dataOrPromise, h)
        else missPath loadFunction url m h
    | None => missPath loadFunction url m h
    end in
  match cache with
  | ArgFalse =>
      match invoke loadFunction url h with
      | (Throw e, h1) => (Throw e, h1)
      | (Return p, h1) => (Return (InFlight p), h1)
      end
  | ArgUndefined => cached DEFAULT_CACHE
  | ArgMap m => cached m
  | ArgRecord _ => (Throw (TypeError "cache.get is not a function"), h)
  end.

(** The function given to [loadCached] at line 144: not an async function,
    so its [throw] is a synchronous one. *)
Definition textureLoadFunction : LoadFunction := fun url headers =>
  if includes url ".png" || includes url ".webp"
     || includes url "image/png" || includes url "image/webp"
  then Starts (LoadImage url headers)
  else if includes url ".tif" || includes url "image/tif"
  then Starts (LoadGeotiff url headers)
  else Throws (Error "Unsupported data format" None).

(** The function given to [loadCached] at line 154: an async function. *)
Definition jsonLoadFunction : LoadFunction := fun url headers =>
  Starts (FetchJson url headers).

Definition loadTextureData := loadCached textureLoadFunction.
Definition loadJson := loadCached jsonLoadFunction.

(** *** The event loop *)

(** The environment settles a pending promise: on fulfilment its reactions
    become jobs, on rejection they are dropped (they have no handler for it). *)
Definition settle (p : PromiseId) (s : Settled) (h : Heap) : Heap :=
  match promises h !! p with
  | Some (t, None) =>
      let ps := <[p := (t, Some s)]> (promises h) in
      let mine := filter (λ r, r.1 = p) (reactions h) in
      let rest := filter (λ r, r.1 ≠ p) (reactions h) in
      match s with
      | Fulfilled v =>
          mkHeap ps (cells h) rest (jobs h ++ ((λ r, (r.2, v)) <$> mine)) (calls h)
      | Rejected _ => mkHeap ps (cells h) rest (jobs h) (calls h)
      end
  | _ => h
  end.

(** The next microtask: [cache.set(url, data)]. *)
Definition runJob (h : Heap) : Heap :=
  match jobs h with
  | [] => h
  | (k, v) :: js =>
      mkHeap (promises h) (<[k := Resolved v]> (cells h)) (reactions h) js (calls h)
  end.

Inductive Action : Type :=
| Call (loadFunction : LoadFunction) (url : string) (cache : CacheArg)
| Settle (p : PromiseId) (s : Settled)
| RunJob.

Definition step (h : Heap) (a : Action) : Heap :=
  match a with
  | Call lf url cache => (loadCached lf url cache h).2
  | Settle p s => settle p s h
  | RunJob => runJob h
  end.

Definition run (acts : list Action) (h : Heap) : Heap := foldl step h acts.

(** The map a cache argument denotes, when it denotes one. *)
Definition cacheOf (cache : CacheArg) : option MapId :=
  match cache with
  | ArgUndefined => Some DEFAULT_CACHE
  | ArgMap m => Some m
  | ArgFalse | ArgRecord _ => None
  end.

(** * Vocabulary of the properties, and sample inputs *)

(** [needle] occurs in [s]. *)
Definition Contains (s needle : string) : Prop :=
  ∃ pre suf, s = pre +:+ needle +:+ suf.

Definition hasImageMarker (url : string) : Prop :=
  Contains url ".png" ∨ Contains url ".webp"
  ∨ Contains url "image/png" ∨ Contains url "image/webp".

Definition hasTiffMarker (url : string) : Prop :=
  Contains url ".tif" ∨ Contains url "image/tif".

(** What the loop computes, element by element. *)
Definition maskFloat (nodata : float) (x : float) : float :=
  if nearNodata x nodata then PrimFloat.nan else x.

Definition maskByte (nodata : float) (z : Z) : Z :=
  if nearNodata (TypedArray.byteToNumber z) nodata then 0%Z else z.

(** The raw element [a[i]], before its conversion to a number. *)
Definition element (a : TextureDataArray) (i : nat) : option (Z + float) :=
  match a with
  | Uint8Array l | Uint8ClampedArray l => inl <$> l !! i
  | Float32Array l => inr <$> l !! i
  end.

(** Which of the three typed arrays an array is. *)
Inductive ArrayKind : Type := KUint8 | KUint8Clamped | KFloat32.

Definition arrayKind (a : TextureDataArray) : ArrayKind :=
  match a with
  | Uint8Array _ => KUint8
  | Uint8ClampedArray _ => KUint8Clamped
  | Float32Array _ => KFloat32
  end.

(** The element an array of a given kind holds after [a[i] = NaN]. *)
Definition storedNaN (k : ArrayKind) : Z + float :=
  match k with
  | KUint8 | KUint8Clamped => inl 0%Z
  | KFloat32 => inr PrimFloat.nan
  end.

(** The masked copy of a whole array. *)
Definition masked (nodata : float) (a : TextureDataArray) : TextureDataArray :=
  match a with
  | Uint8Array l => Uint8Array (maskByte nodata <$> l)
  | Uint8ClampedArray l => Uint8ClampedArray (maskByte nodata <$> l)
  | Float32Array l => Float32Array (maskFloat nodata <$> l)
  end.

Definition sampleRaster : TextureDataArray :=
  Float32Array [1.5%float; (-9999)%float; PrimFloat.nan].

Definition authHeaders : Headers := {[ "Authorization" := "Bearer t" ]}.

(** What holds of every heap the event loop reaches: a registered callback
    belongs to the pending promise that its cache cell holds, a queued callback
    to the fulfilled promise that its cache cell holds, and no cell has two
    callbacks. *)
Record WF (h : Heap) : Prop := mkWF {
  wf_reactions : ∀ p k, (p, k) ∈ reactions h →
    promiseState h p = Some None ∧ cells h !! k = Some (InFlight p);
  wf_jobs : ∀ k v, (k, v) ∈ jobs h →
    ∃ p, cells h !! k = Some (InFlight p)
         ∧ promiseState h p = Some (Some (Fulfilled v));
  wf_reactions_NoDup : NoDup (reactions h).*2;
  wf_jobs_NoDup : NoDup (jobs h).*1
}.

(** The promise [p] exists and no [.then] callback is registered on it. *)
Definition callbackFree (p : PromiseId) (h : Heap) : Prop :=
  p < List.length (promises h) ∧ ∀ k, (p, k) ∉ reactions h.

(** The options [loadGeotiff] gives to [GeoTIFF.fromUrl] (lines 97-103). *)
Definition fromUrlOptions (headers : option Headers) : FromUrlOptions :=
  mkFromUrlOptions true MAX_SAFE_INTEGER (customFetch <$> headers).

Definition decodeError (url : string) (cause : Thrown) : Thrown :=
  Error ("Image " +:+ url +:+ " can't be decoded.") (Some cause).


(** A browser that serves and decodes a 2x2 image. *)
Definition servedImage : ImageData :=
  mkImageData [255; 0; 0; 255; 0; 255; 0; 255; 0; 0; 255; 255; 255; 255; 255; 255]%Z 2 2.

Definition okResponse : Response :=
  mkResponse true "OK" (inr 7) (inl (External "SyntaxError")).

Definition goodBrowser : Browser :=
  mkBrowser (fun _ _ => inr okResponse) (fun _ => "blob:1")
    (fun _ => inr (2, 2)%Z) (fun _ _ => true) (fun _ _ _ => inr servedImage).



(** The same, but the image does not decode. *)
Definition noDecodeBrowser : Browser :=
  mkBrowser (fun _ _ => inr okResponse) (fun _ => "blob:1")
    (fun _ => inl (External "EncodingError")) (fun _ _ => true)
    (fun _ _ _ => inr servedImage).

Definition unreachableLib : GeotiffLib :=
  mkGeotiffLib (inr tt) (fun _ _ => inl (External "404 Not Found"))
    (fun _ _ => inr 0) (fun _ => inr (Supported (Float32Array []))) (fun _ => None)
    (fun _ => 0%Z) (fun _ => 0%Z).

(** A file whose header reads but whose first image directory does not
    parse, and one whose strips do not decompress. *)
Definition badDirectoryLib : GeotiffLib :=
  mkGeotiffLib (inr tt) (fun _ _ => inr 0)
    (fun _ _ => inl (External "Invalid IFD"))
    (fun _ => inr (Supported (Float32Array []))) (fun _ => None)
    (fun _ => 0%Z) (fun _ => 0%Z).

Definition badStripsLib : GeotiffLib :=
  mkGeotiffLib (inr tt) (fun _ _ => inr 0) (fun _ _ => inr 0)
    (fun _ => inl (External "Unknown compression method")) (fun _ => None)
    (fun _ => 0%Z) (fun _ => 0%Z).

(** A one-band float raster, 3x1, with the declared nodata -9999. *)
Definition floatRasterLib : GeotiffLib :=
  mkGeotiffLib (inr tt) (fun _ _ => inr 0) (fun _ _ => inr 0)
    (fun _ => inr (Supported (Float32Array [1.5%float; (-9999)%float; 3%float])))
    (fun _ => Some (-9999)%float) (fun _ => 3%Z) (fun _ => 1%Z).

Definition decodeFailure : Thrown :=
  Error "Image https://x/a.png can't be decoded." (Some (External "EncodingError")).

(** A browser whose server answers 404. *)
Definition notFoundBrowser : Browser :=
  mkBrowser
    (fun _ _ => inr (mkResponse false "Not Found" (inr 7) (inl (External "SyntaxError"))))
    (fun _ => "blob:1") (fun _ => inr (2, 2)%Z) (fun _ _ => true)
    (fun _ _ _ => inr servedImage).

(** A byte raster without a declared nodata value, and a raster of 16-bit
    samples. *)
Definition byteRasterLib : GeotiffLib :=
  mkGeotiffLib (inr tt) (fun _ _ => inr 0) (fun _ _ => inr 0)
    (fun _ => inr (Supported (Uint8Array [1; 2; 3]%Z))) (fun _ => None)
    (fun _ => 3%Z) (fun _ => 1%Z).

Definition uint16RasterLib : GeotiffLib :=
  mkGeotiffLib (inr tt) (fun _ _ => inr 0) (fun _ _ => inr 0)
    (fun _ => inr (OtherTypedArray "Uint16Array")) (fun _ => Some 0%float)
    (fun _ => 3%Z) (fun _ => 1%Z).

(** ** Tasks, their bodies, and draining the microtask queue *)

(** The URL an async function was started with. *)
Definition taskUrl (t : Task) : string :=
  match t with
  | LoadImage url _ | LoadGeotiff url _ | FetchJson url _ => url
  end.


(** The body behind a task. The promise of [loadImage] or [loadGeotiff] is
    what the dispatcher returns (lines 146, 148), so it resolves to their
    texture; the JSON loader resolves to [response.json()]. *)
Definition runTask (b : Browser) (g : GeotiffLib) (t : Task) : Async Value :=
  match t with
  | LoadImage url headers =>
      let! textureData := loadImage b url headers in ret (VTexture textureData)
  | LoadGeotiff url headers =>
      let! textureData := loadGeotiff g url headers in ret (VTexture textureData)
  | FetchJson url headers => fetchJson b url headers
  end.

(** A promise settles as the body of its async function ends: fulfilled with
    the value returned, rejected with the value thrown. *)
Definition settlement (r : Thrown + Value) : Settled :=
  match r with
  | inr v => Fulfilled v
  | inl e => Rejected e
  end.

Definition settleTask (b : Browser) (g : GeotiffLib) (p : PromiseId) (w : World)
    (h : Heap) : Heap * World :=
  match promises h !! p with
  | Some (t, None) =>
      let '(r, w') := runTask b g t w in (settle p (settlement r) h, w')
  | _ => (h, w)
  end.

(** The microtask queue is run until it is empty before any other task
    starts. *)
Definition runAllJobs (h : Heap) : Heap :=
  run (replicate (List.length (jobs h)) RunJob) h.

(** An action of a caller who uses the two exported wrappers only. *)
Definition exportedCall (a : Action) : Prop :=
  match a with
  | Call lf _ _ => lf = textureLoadFunction ∨ lf = jsonLoadFunction
  | Settle _ _ | RunJob => True
  end.

(** What a cache cell holds under a URL comes from a load of that URL. *)
Definition cacheSound (h : Heap) : Prop :=
  ∀ m url e, cells h !! (m, url) = Some e →
    match e with
    | InFlight p => ∃ t s, promises h !! p = Some (t, s) ∧ taskUrl t = url
    | Resolved v =>
        ∃ p t, promises h !! p = Some (t, Some (Fulfilled v)) ∧ taskUrl t = url
    end.

(** * Properties *)

(** ** Substring search *)

Lemma append_empty_l (s : string) : "" +:+ s = s.
Proof. reflexivity. Qed.

Lemma append_String (c : ascii) (a s : string) :
  String c a +:+ s = String c (a +:+ s).
Proof. reflexivity. Qed.

Lemma startsWith_spec (s needle : string) :
  startsWith s needle = true ↔ ∃ suf, s = needle +:+ suf.
Proof.
  revert s. induction needle as [|c n IH]; intros s; simpl.
  - split; [intros _; exists s; reflexivity | done].
  - destruct s as [|d s']; simpl.
    + split; [done | intros [suf Hs]; by rewrite append_String in Hs].
    + rewrite andb_true_iff, IH. split.
      * intros [Hc [suf ->]]. apply Ascii.eqb_eq in Hc as ->. by exists suf.
      * intros [suf Hs]. rewrite append_String in Hs. injection Hs as -> ->.
        split; [apply Ascii.eqb_refl | by exists suf].
Qed.

Lemma includes_spec (s needle : string) :
  includes s needle = true ↔ Contains s needle.
Proof.
  unfold Contains. induction s as [|d s' IH]; simpl.
  - rewrite orb_false_r, startsWith_spec. split.
    + intros [suf Hs]. exists "", suf. by rewrite append_empty_l.
    + intros [pre [suf Hs]]. destruct pre as [|c pre].
      * rewrite append_empty_l in Hs. by exists suf.
      * by rewrite append_String in Hs.
  - rewrite orb_true_iff, startsWith_spec, IH. split.
    + intros [[suf Hs] | [pre [suf Hs]]].
      * exists "", suf. by rewrite append_empty_l.
      * exists (String d pre), suf. by rewrite append_String, Hs.
    + intros [pre [suf Hs]]. destruct pre as [|c pre].
      * left. rewrite append_empty_l in Hs. by exists suf.
      * right. rewrite append_String in Hs. injection Hs as -> ->. by exists pre, suf.
Qed.

Lemma includes_false (s needle : string) :
  includes s needle = false ↔ ¬ Contains s needle.
Proof. rewrite <- includes_spec. by destruct (includes s needle). Qed.

Lemma Contains_append_middle (a b c : string) : Contains (a +:+ b +:+ c) b.
Proof. by exists a, c. Qed.

(** ** Format dispatcher *)

Lemma imageMarker_test (url : string) :
  includes url ".png" || includes url ".webp"
  || includes url "image/png" || includes url "image/webp" = true
  ↔ hasImageMarker url.
Proof.
  unfold hasImageMarker. rewrite !orb_true_iff, !includes_spec. tauto.
Qed.

Lemma tiffMarker_test (url : string) :
  includes url ".tif" || includes url "image/tif" = true ↔ hasTiffMarker url.
Proof. unfold hasTiffMarker. rewrite !orb_true_iff, !includes_spec. tauto. Qed.

Lemma dispatch_image (url : string) (headers : option Headers) :
  hasImageMarker url →
  textureLoadFunction url headers = Starts (LoadImage url headers).
Proof.
  intros Himg. apply imageMarker_test in Himg.
  unfold textureLoadFunction. by rewrite Himg.
Qed.

Lemma dispatch_not_image (url : string) :
  ¬ hasImageMarker url →
  includes url ".png" || includes url ".webp"
  || includes url "image/png" || includes url "image/webp" = false.
Proof.
  rewrite <- imageMarker_test.
  by destruct (includes url ".png" || includes url ".webp"
               || includes url "image/png" || includes url "image/webp").
Qed.

Lemma dispatch_geotiff (url : string) (headers : option Headers) :
  ¬ hasImageMarker url → hasTiffMarker url →
  textureLoadFunction url headers = Starts (LoadGeotiff url headers).
Proof.
  intros Hno Htif. apply tiffMarker_test in Htif.
  unfold textureLoadFunction. by rewrite (dispatch_not_image url Hno), Htif.
Qed.

Lemma dispatch_unsupported (url : string) (headers : option Headers) :
  ¬ hasImageMarker url → ¬ hasTiffMarker url →
  textureLoadFunction url headers = Throws (Error "Unsupported data format" None).
Proof.
  intros Hno Hno'. unfold textureLoadFunction.
  rewrite (dispatch_not_image url Hno).
  rewrite <- tiffMarker_test in Hno'.
  by destruct (includes url ".tif" || includes url "image/tif").
Qed.

(** C6. The dispatcher routes by substring, in this order: a URL with a PNG
    or WebP marker starts the image decoder; otherwise a URL with a TIFF
    marker starts the GeoTIFF decoder; otherwise the call fails with the
    error "Unsupported data format". *)
Theorem dispatcher_precedence (url : string) (headers : option Headers) :
  (hasImageMarker url →
     textureLoadFunction url headers = Starts (LoadImage url headers))
  ∧ (¬ hasImageMarker url → hasTiffMarker url →
     textureLoadFunction url headers = Starts (LoadGeotiff url headers))
  ∧ (¬ hasImageMarker url → ¬ hasTiffMarker url →
     textureLoadFunction url headers = Throws (Error "Unsupported data format" None)).
Proof.
  split; [apply dispatch_image|].
  split; [apply dispatch_geotiff | apply dispatch_unsupported].
Qed.

Lemma dispatcher_precedence_witness :
  textureLoadFunction "https://x/a.png" None = Starts (LoadImage "https://x/a.png" None)
  ∧ textureLoadFunction "https://x/a.tif" None = Starts (LoadGeotiff "https://x/a.tif" None)
  ∧ textureLoadFunction "https://x/a.xyz" None = Throws (Error "Unsupported data format" None)
  ∧ textureLoadFunction "https://x/a.png?fallback=b.tif" None
    = Starts (LoadImage "https://x/a.png?fallback=b.tif" None).
Proof.
  split; [|split; [|split]].
  - apply (dispatcher_precedence "https://x/a.png" None).
    left. apply includes_spec. reflexivity.
  - apply (dispatcher_precedence "https://x/a.tif" None).
    + rewrite <- imageMarker_test. vm_compute. discriminate.
    + left. apply includes_spec. reflexivity.
  - apply (dispatcher_precedence "https://x/a.xyz" None).
    + rewrite <- imageMarker_test. vm_compute. discriminate.
    + rewrite <- tiffMarker_test. vm_compute. discriminate.
  - apply (dispatcher_precedence "https://x/a.png?fallback=b.tif" None).
    left. apply includes_spec. reflexivity.
Defined.

(** ** Nodata masker *)

Example maskData_example :
  maskData [Float32Array [1.5%float; (-9999)%float; 3%float]] 0 (Some (-9999)%float)
  = Some (1, [Float32Array [1.5%float; (-9999)%float; 3%float];
              Float32Array [1.5%float; PrimFloat.nan; 3%float]]).
Proof. vm_compute. reflexivity. Qed.

Section MaskLoop.
Variable nodata : float.

Lemma maskLoop_float (pre rest : list float) :
  maskLoop nodata (List.length rest) (List.length pre) (Float32Array (pre ++ rest))
  = Float32Array (pre ++ (maskFloat nodata <$> rest)).
Proof.
  revert pre. induction rest as [|x rest IH]; intros pre; simpl; [done|].
  rewrite list_lookup_middle by done. unfold maskFloat at 1.
  specialize (IH (pre ++ [if nearNodata x nodata then PrimFloat.nan else x])).
  rewrite length_app, Nat.add_1_r, <- !app_assoc in IH. simpl in IH.
  destruct (nearNodata x nodata); simpl; [|done].
  rewrite insert_app_r_alt, Nat.sub_diag by done. done.
Qed.

Lemma maskLoop_uint8 (pre rest : list Z) :
  maskLoop nodata (List.length rest) (List.length pre) (Uint8Array (pre ++ rest))
  = Uint8Array (pre ++ (maskByte nodata <$> rest)).
Proof.
  revert pre. induction rest as [|z rest IH]; intros pre; simpl; [done|].
  rewrite list_lookup_middle by done. simpl. unfold maskByte at 1.
  specialize (IH (pre ++ [if nearNodata (TypedArray.byteToNumber z) nodata then 0%Z else z])).
  rewrite length_app, Nat.add_1_r, <- !app_assoc in IH. simpl in IH.
  destruct (nearNodata (TypedArray.byteToNumber z) nodata); simpl; [|done].
  rewrite insert_app_r_alt, Nat.sub_diag by done. done.
Qed.

Lemma maskLoop_uint8Clamped (pre rest : list Z) :
  maskLoop nodata (List.length rest) (List.length pre) (Uint8ClampedArray (pre ++ rest))
  = Uint8ClampedArray (pre ++ (maskByte nodata <$> rest)).
Proof.
  revert pre. induction rest as [|z rest IH]; intros pre; simpl; [done|].
  rewrite list_lookup_middle by done. simpl. unfold maskByte at 1.
  specialize (IH (pre ++ [if nearNodata (TypedArray.byteToNumber z) nodata then 0%Z else z])).
  rewrite length_app, Nat.add_1_r, <- !app_assoc in IH. simpl in IH.
  destruct (nearNodata (TypedArray.byteToNumber z) nodata); simpl; [|done].
  rewrite insert_app_r_alt, Nat.sub_diag by done. done.
Qed.

Lemma maskLoop_masked (a : TextureDataArray) :
  maskLoop nodata (TypedArray.length a) 0 a = masked nodata a.
Proof.
  destruct a as [l|l|l]; simpl.
  - apply (maskLoop_uint8 [] l).
  - apply (maskLoop_uint8Clamped [] l).
  - apply (maskLoop_float [] l).
Qed.

Lemma masked_length (a : TextureDataArray) :
  TypedArray.length (masked nodata a) = TypedArray.length a.
Proof. destruct a; simpl; apply length_fmap. Qed.

Lemma masked_kind (a : TextureDataArray) :
  TypedArray.isFloat32 (masked nodata a) = TypedArray.isFloat32 a.
Proof. by destruct a. Qed.

Lemma masked_unchanged (a : TextureDataArray) (i : nat) (o : float) :
  TypedArray.get a i = Some o → nearNodata o nodata = false →
  element (masked nodata a) i = element a i.
Proof.
  destruct a as [l|l|l]; simpl; rewrite list_lookup_fmap;
    destruct (l !! i) as [x|]; simpl; try done;
    intros [= <-] Hfar; unfold maskByte, maskFloat; by rewrite Hfar.
Qed.

Lemma masked_float_nan (l : list float) (i : nat) (o : float) :
  l !! i = Some o →
  ∃ e, TypedArray.get (masked nodata (Float32Array l)) i = Some e
       ∧ (PrimFloat.is_nan e = true
          ↔ nearNodata o nodata = true ∨ PrimFloat.is_nan o = true).
Proof.
  intros Ho. exists (maskFloat nodata o). simpl. rewrite list_lookup_fmap, Ho. split; [done|].
  unfold maskFloat. destruct (nearNodata o nodata).
  - split; [by left | reflexivity].
  - split; [by right | by intros [?|?]].
Qed.

Lemma masked_byte_zero (a : TextureDataArray) (i : nat) (o : float) :
  TypedArray.isFloat32 a = false →
  TypedArray.get a i = Some o → nearNodata o nodata = true →
  element (masked nodata a) i = Some (inl 0%Z).
Proof.
  destruct a as [l|l|l]; simpl; try done; intros _; rewrite list_lookup_fmap;
    destruct (l !! i) as [z|]; simpl; try done;
    intros [= <-] Hnear; unfold maskByte; by rewrite Hnear.
Qed.

End MaskLoop.

Lemma masked_arrayKind (s : float) (a : TextureDataArray) :
  arrayKind (masked s a) = arrayKind a.
Proof. by destruct a. Qed.

Lemma masked_matched (s : float) (a : TextureDataArray) (i : nat) (o : float) :
  TypedArray.get a i = Some o → nearNodata o s = true →
  element (masked s a) i = Some (storedNaN (arrayKind a)).
Proof.
  destruct a as [l|l|l]; simpl; rewrite list_lookup_fmap;
    destruct (l !! i) as [x|]; simpl; try done;
    intros [= <-] Hnear; unfold maskByte, maskFloat; by rewrite Hnear.
Qed.

(** C2 (amended). With a sentinel [s], [maskData] leaves its input alone and
    returns a new array of the same kind (the same one of the three typed
    arrays) and length. Every element that is not within [2 * EPSILON] of [s]
    is copied unchanged; every element that is within it is overwritten with
    NaN, which a [Float32Array] stores as NaN and a [Uint8Array] or
    [Uint8ClampedArray] stores as 0. So in a [Float32Array] an output element
    is NaN exactly when the original is within [2 * EPSILON] of [s] or is
    itself NaN. Without a sentinel the result is the reference it was given,
    and nothing is allocated. *)
Theorem maskData_spec (st : TypedArray.Store) (data : Ref) (a : TextureDataArray)
    (nodata : option float) :
  st !! data = Some a →
  match nodata with
  | None => maskData st data None = Some (data, st)
  | Some s =>
      ∃ out,
        maskData st data (Some s) = Some (List.length st, st ++ [out])
        ∧ data ≠ List.length st
        ∧ (st ++ [out]) !! data = Some a
        ∧ (st ++ [out]) !! List.length st = Some out
        ∧ TypedArray.length out = TypedArray.length a
        ∧ arrayKind out = arrayKind a
        ∧ ∀ i o, TypedArray.get a i = Some o →
            (nearNodata o s = false → element out i = element a i)
            ∧ (nearNodata o s = true →
               element out i = Some (storedNaN (arrayKind a)))
            ∧ (arrayKind a = KFloat32 →
               ∃ e, TypedArray.get out i = Some e
                    ∧ (PrimFloat.is_nan e = true
                       ↔ nearNodata o s = true ∨ PrimFloat.is_nan o = true))
  end.
Proof.
  intros Ha. destruct nodata as [s|]; [|done].
  exists (masked s a). unfold maskData. rewrite Ha. simpl.
  rewrite maskLoop_masked. pose proof (lookup_lt_Some _ _ _ Ha) as Hlt.
  split; [done|]. split; [lia|].
  split; [by rewrite lookup_app_l|].
  split; [by apply list_lookup_middle|].
  split; [apply masked_length|]. split; [apply masked_arrayKind|].
  intros i o Ho. split; [|split].
  - by apply masked_unchanged.
  - by apply masked_matched.
  - destruct a as [l|l|l]; try done. intros _. by apply masked_float_nan.
Qed.

Lemma maskData_spec_witness :
  ∃ out,
    maskData [sampleRaster] 0 (Some (-9999)%float) = Some (1, [sampleRaster] ++ [out])
    ∧ 0 ≠ 1
    ∧ ([sampleRaster] ++ [out]) !! 0 = Some sampleRaster
    ∧ ([sampleRaster] ++ [out]) !! 1 = Some out
    ∧ TypedArray.length out = TypedArray.length sampleRaster
    ∧ arrayKind out = arrayKind sampleRaster
    ∧ ∀ i o, TypedArray.get sampleRaster i = Some o →
        (nearNodata o (-9999)%float = false → element out i = element sampleRaster i)
        ∧ (nearNodata o (-9999)%float = true →
           element out i = Some (storedNaN (arrayKind sampleRaster)))
        ∧ (arrayKind sampleRaster = KFloat32 →
           ∃ e, TypedArray.get out i = Some e
                ∧ (PrimFloat.is_nan e = true
                   ↔ nearNodata o (-9999)%float = true ∨ PrimFloat.is_nan o = true)).
Proof.
  exact (maskData_spec [sampleRaster] 0 sampleRaster (Some (-9999)%float) eq_refl).
Defined.

(** C2 as stated fails on the code in two ways. In a byte array the element
    5 meets the test for the sentinel 5 and is stored as 0, which is not NaN;
    in a float array an element that is NaN to begin with does not meet the
    test (for the sentinel 0) and is still NaN in the output. *)
Lemma maskData_nan_iff_counterexample :
  (maskData [Uint8Array [5%Z]] 0 (Some 5%float)
   = Some (1, [Uint8Array [5%Z]; Uint8Array [0%Z]])
   ∧ nearNodata (TypedArray.byteToNumber 5) 5%float = true
   ∧ TypedArray.get (Uint8Array [0%Z]) 0 = Some 0%float
   ∧ PrimFloat.is_nan 0%float = false)
  ∧ (maskData [Float32Array [PrimFloat.nan]] 0 (Some 0%float)
     = Some (1, [Float32Array [PrimFloat.nan]; Float32Array [PrimFloat.nan]])
     ∧ nearNodata PrimFloat.nan 0%float = false
     ∧ PrimFloat.is_nan PrimFloat.nan = true).
Proof. vm_compute. repeat split. Qed.

(** X9. In the integer arrays the element written for a match is 0. *)
Lemma maskData_bytes_store_zero (st : TypedArray.Store) (data : Ref)
    (a : TextureDataArray) (s : float) (i : nat) (o : float) :
  st !! data = Some a → TypedArray.isFloat32 a = false →
  TypedArray.get a i = Some o → nearNodata o s = true →
  ∃ out, maskData st data (Some s) = Some (List.length st, st ++ [out])
         ∧ element out i = Some (inl 0%Z).
Proof.
  intros Ha Hk Ho Hnear. exists (masked s a). unfold maskData. rewrite Ha. simpl.
  rewrite maskLoop_masked. split; [done|]. by eapply masked_byte_zero.
Qed.

(** ** The memoizing wrapper: single calls *)

Lemma invoke_calls (lf : LoadFunction) (url : string) (h : Heap) :
  calls (invoke lf url h).2 = calls h ++ [(url, None)].
Proof. unfold invoke. by destruct (lf url None). Qed.

Lemma invoke_frame (lf : LoadFunction) (url : string) (h : Heap) :
  cells (invoke lf url h).2 = cells h
  ∧ reactions (invoke lf url h).2 = reactions h
  ∧ jobs (invoke lf url h).2 = jobs h.
Proof. unfold invoke. by destruct (lf url None). Qed.

Lemma invoke_result (lf : LoadFunction) (url : string) (h : Heap) :
  (invoke lf url h).1
  = match lf url None with
    | Throws e => Throw e
    | Starts _ => Return (List.length (promises h))
    end.
Proof. unfold invoke. by destruct (lf url None). Qed.

Lemma invoke_promises (lf : LoadFunction) (url : string) (h : Heap) :
  promises (invoke lf url h).2
  = promises h ++ match lf url None with
                  | Throws _ => []
                  | Starts t => [(t, None)]
                  end.
Proof. unfold invoke. destruct (lf url None); simpl; by rewrite ?app_nil_r. Qed.

Lemma loadCached_cases (lf : LoadFunction) (url : string) (cache : CacheArg)
    (m : MapId) (h : Heap) :
  cacheOf cache = Some m →
  loadCached lf url cache h
  = match Map_get m url h with
    | Some e => if entryTruthy e then (Return e, h) else missPath lf url m h
    | None => missPath lf url m h
    end.
Proof. destruct cache; intros [= <-]; reflexivity. Qed.

(** C3 (amended). When the cache holds a truthy entry under the URL (a
    promise, pending or settled, or a resolved value that is not falsy), the
    wrapper returns that entry as it is and changes nothing: the loader is not
    invoked. *)
Theorem loadCached_hit (lf : LoadFunction) (url : string) (cache : CacheArg)
    (m : MapId) (h : Heap) (e : Entry) :
  cacheOf cache = Some m →
  Map_get m url h = Some e →
  entryTruthy e = true →
  loadCached lf url cache h = (Return e, h).
Proof.
  intros Hc He Ht. by rewrite (loadCached_cases _ _ _ _ _ Hc), He, Ht.
Qed.

Lemma loadCached_hit_witness :
  loadCached jsonLoadFunction "https://x/a.json" ArgUndefined
    (mkHeap [(FetchJson "https://x/a.json" None, None)]
            {[ (DEFAULT_CACHE, "https://x/a.json") := InFlight 0 ]} [] [] [])
  = (Return (InFlight 0),
     mkHeap [(FetchJson "https://x/a.json" None, None)]
            {[ (DEFAULT_CACHE, "https://x/a.json") := InFlight 0 ]} [] [] []).
Proof.
  apply (loadCached_hit jsonLoadFunction "https://x/a.json" ArgUndefined DEFAULT_CACHE).
  - reflexivity.
  - vm_compute. reflexivity.
  - reflexivity.
Defined.

(** C3 as stated fails for a resolved value that is falsy. A JSON document
    that is the number 0 is loaded and cached; the next call for the same
    URL finds the entry, and invokes the loader again. *)
Lemma loadCached_falsy_entry_counterexample :
  let url := "https://x/zero.json" in
  let h := run [Call jsonLoadFunction url ArgUndefined;
                Settle 0 (Fulfilled (VNumber 0));
                RunJob] emptyHeap in
  Map_get DEFAULT_CACHE url h = Some (Resolved (VNumber 0))
  ∧ calls h = [(url, None)]
  ∧ (loadJson url ArgUndefined h).1 = Return (InFlight 1)
  ∧ calls (loadJson url ArgUndefined h).2 = [(url, None); (url, None)].
Proof. vm_compute. repeat split. Qed.

(** C5. With [false] as the cache the wrapper invokes the loader once and
    returns what it returns (a new promise, or its exception), whatever the
    caches hold; no cache entry is written and no callback is registered or
    queued. *)
Theorem loadCached_bypass (lf : LoadFunction) (url : string) (h : Heap) :
  (loadCached lf url ArgFalse h).1
  = match lf url None with
    | Throws e => Throw e
    | Starts _ => Return (InFlight (List.length (promises h)))
    end
  ∧ calls (loadCached lf url ArgFalse h).2 = calls h ++ [(url, None)]
  ∧ cells (loadCached lf url ArgFalse h).2 = cells h
  ∧ reactions (loadCached lf url ArgFalse h).2 = reactions h
  ∧ jobs (loadCached lf url ArgFalse h).2 = jobs h.
Proof.
  unfold loadCached, invoke. by destruct (lf url None).
Qed.

(** Reading no cache: two heaps that differ in their caches only give the
    same result. *)
Lemma loadCached_bypass_ignores_cells (lf : LoadFunction) (url : string)
    (h : Heap) (c : gmap (MapId * string) Entry) :
  (loadCached lf url ArgFalse
     (mkHeap (promises h) c (reactions h) (jobs h) (calls h))).1
  = (loadCached lf url ArgFalse h).1.
Proof. unfold loadCached, invoke. by destruct (lf url None). Qed.

(** ** Headers and the wrapper *)

(** Every invocation the wrapper makes passes the URL alone. *)
Lemma loadCached_calls (lf : LoadFunction) (url : string) (cache : CacheArg) (h : Heap) :
  calls (loadCached lf url cache h).2 = calls h
  ∨ calls (loadCached lf url cache h).2 = calls h ++ [(url, None)].
Proof.
  assert (∀ m, calls (missPath lf url m h).2 = calls h ++ [(url, None)]) as Hmiss.
  { intros m. unfold missPath, invoke, then_, promiseState.
    destruct (lf url None); simpl; [done|].
    rewrite list_lookup_middle by done. done. }
  destruct cache as [| |m|o].
  - rewrite (loadCached_cases lf url ArgUndefined DEFAULT_CACHE h eq_refl).
    destruct (Map_get DEFAULT_CACHE url h) as [e|]; [destruct (entryTruthy e)|]; auto.
  - right. unfold loadCached, invoke. by destruct (lf url None).
  - rewrite (loadCached_cases lf url (ArgMap m) m h eq_refl).
    destruct (Map_get m url h) as [e|]; [destruct (entryTruthy e)|]; auto.
  - by left.
Qed.

Lemma then_promises (p : PromiseId) (k : MapId * string) (h : Heap) :
  promises (then_ p k h) = promises h.
Proof.
  unfold then_. destruct (promiseState h p) as [[[v|e]|]|]; reflexivity.
Qed.

Lemma missPath_promises (lf : LoadFunction) (url : string) (m : MapId) (h : Heap) :
  promises (missPath lf url m h).2
  = promises h ++ match lf url None with
                  | Throws _ => []
                  | Starts t => [(t, None)]
                  end.
Proof.
  unfold missPath, invoke. destruct (lf url None); simpl.
  - by rewrite app_nil_r.
  - by rewrite then_promises.
Qed.

(** The promises the wrapper creates are those of the tasks its loader
    starts when called with the URL alone. *)
Lemma loadCached_promises (lf : LoadFunction) (url : string) (cache : CacheArg) (h : Heap) :
  promises (loadCached lf url cache h).2 = promises h
  ∨ ∃ t, lf url None = Starts t
         ∧ promises (loadCached lf url cache h).2 = promises h ++ [(t, None)].
Proof.
  assert (∀ m, promises (missPath lf url m h).2 = promises h
               ∨ ∃ t, lf url None = Starts t
                      ∧ promises (missPath lf url m h).2 = promises h ++ [(t, None)])
    as Hmiss.
  { intros m. rewrite missPath_promises. destruct (lf url None) as [e|t].
    - left. apply app_nil_r.
    - right. by exists t. }
  destruct cache as [| |m|o].
  - rewrite (loadCached_cases lf url ArgUndefined DEFAULT_CACHE h eq_refl).
    destruct (Map_get DEFAULT_CACHE url h) as [e|]; [destruct (entryTruthy e)|]; auto.
  - unfold loadCached, invoke. destruct (lf url None) as [e|t]; simpl.
    + by left.
    + right. by exists t.
  - rewrite (loadCached_cases lf url (ArgMap m) m h eq_refl).
    destruct (Map_get m url h) as [e|]; [destruct (entryTruthy e)|]; auto.
  - by left.
Qed.

(** C1. The wrapper has two parameters, [(url, cache)], and calls its loader
    with the URL alone. A headers object given as the second argument is taken
    for the cache: [cache.get] is not a function, the call throws, and no load
    starts. Whatever the arguments, every invocation of a loader receives
    undefined headers, and every image or GeoTIFF task the wrapper starts runs
    without headers. *)
Theorem headers_argument_not_forwarded :
  loadTextureData "https://x/a.png" (ArgRecord authHeaders) emptyHeap
  = (Throw (TypeError "cache.get is not a function"), emptyHeap)
  ∧ loadJson "https://x/a.json" (ArgRecord authHeaders) emptyHeap
    = (Throw (TypeError "cache.get is not a function"), emptyHeap)
  ∧ (∀ lf url cache h,
       calls (loadCached lf url cache h).2 = calls h
       ∨ calls (loadCached lf url cache h).2 = calls h ++ [(url, None)])
  ∧ (∀ url cache h,
       promises (loadTextureData url cache h).2 = promises h
       ∨ promises (loadTextureData url cache h).2
         = promises h ++ [(LoadImage url None, None)]
       ∨ promises (loadTextureData url cache h).2
         = promises h ++ [(LoadGeotiff url None, None)])
  ∧ (∀ url cache h,
       promises (loadJson url cache h).2 = promises h
       ∨ promises (loadJson url cache h).2
         = promises h ++ [(FetchJson url None, None)]).
Proof.
  split; [reflexivity|]. split; [reflexivity|].
  split; [apply loadCached_calls|]. split.
  - intros url cache h. unfold loadTextureData.
    destruct (loadCached_promises textureLoadFunction url cache h)
      as [Hp | [t [Ht Hp]]]; [by left|].
    right. rewrite Hp. unfold textureLoadFunction in Ht.
    destruct (includes url ".png" || includes url ".webp"
              || includes url "image/png" || includes url "image/webp").
    + left. by injection Ht as <-.
    + destruct (includes url ".tif" || includes url "image/tif"); [|done].
      right. by injection Ht as <-.
  - intros url cache h. unfold loadJson.
    destruct (loadCached_promises jsonLoadFunction url cache h)
      as [Hp | [t [Ht Hp]]]; [by left|].
    right. rewrite Hp. by injection Ht as <-.
Qed.

(** ** Synchronous and asynchronous failure *)

(** X19. A URL with no marker, and no truthy entry cached under it: the wrapper
    invokes the dispatcher, whose exception leaves the call itself. Nothing is
    cached and no promise exists. *)
Lemma unsupported_format_throws (url : string) (cache : CacheArg) (h : Heap) :
  ¬ hasImageMarker url → ¬ hasTiffMarker url →
  (∀ m e, cacheOf cache = Some m → Map_get m url h = Some e → entryTruthy e = false) →
  (∀ o, cache ≠ ArgRecord o) →
  loadTextureData url cache h
  = (Throw (Error "Unsupported data format" None),
     mkHeap (promises h) (cells h) (reactions h) (jobs h) (calls h ++ [(url, None)])).
Proof.
  intros Hi Ht Hfalsy Hrec.
  pose proof (dispatch_unsupported url None Hi Ht) as Hthrow.
  assert (∀ m, missPath textureLoadFunction url m h
               = (Throw (Error "Unsupported data format" None),
                  mkHeap (promises h) (cells h) (reactions h) (jobs h)
                    (calls h ++ [(url, None)]))) as Hmiss.
  { intros m. unfold missPath, invoke. by rewrite Hthrow. }
  unfold loadTextureData. destruct cache as [| |m|o].
  - rewrite (loadCached_cases _ url ArgUndefined DEFAULT_CACHE h eq_refl).
    destruct (Map_get DEFAULT_CACHE url h) as [e|] eqn:He; [|done].
    by rewrite (Hfalsy DEFAULT_CACHE e eq_refl He).
  - unfold loadCached, invoke. by rewrite Hthrow.
  - rewrite (loadCached_cases _ url (ArgMap m) m h eq_refl).
    destruct (Map_get m url h) as [e|] eqn:He; [|done].
    by rewrite (Hfalsy m e eq_refl He).
  - by destruct (Hrec o).
Qed.

(** X20. The JSON loader is an async function: called with a cache, [false] or
    nothing, [loadJson] returns and never throws. *)
Lemma loadJson_returns (url : string) (cache : CacheArg) (h : Heap) :
  (∀ o, cache ≠ ArgRecord o) →
  ∃ e, (loadJson url cache h).1 = Return e.
Proof.
  intros Hrec. unfold loadJson.
  assert (∀ m, ∃ e, (missPath jsonLoadFunction url m h).1 = Return e) as Hmiss.
  { intros m. unfold missPath, invoke. simpl. eauto. }
  destruct cache as [| |m|o].
  - rewrite (loadCached_cases _ url ArgUndefined DEFAULT_CACHE h eq_refl).
    destruct (Map_get DEFAULT_CACHE url h) as [e|]; [destruct (entryTruthy e)|]; eauto.
  - unfold loadCached, invoke. simpl. eauto.
  - rewrite (loadCached_cases _ url (ArgMap m) m h eq_refl).
    destruct (Map_get m url h) as [e|]; [destruct (entryTruthy e)|]; eauto.
  - by destruct (Hrec o).
Qed.

(** C7. For a URL that matches no format, [loadTextureData] does not return
    a rejected promise: the dispatcher's exception is thrown from the call,
    with the default cache and with [false]; no promise is created. *)
Theorem unsupported_format_thrown_from_call :
  loadTextureData "https://x/a.xyz" ArgUndefined emptyHeap
  = (Throw (Error "Unsupported data format" None),
     mkHeap [] ∅ [] [] [("https://x/a.xyz", None)])
  ∧ loadTextureData "https://x/a.xyz" ArgFalse emptyHeap
    = (Throw (Error "Unsupported data format" None),
       mkHeap [] ∅ [] [] [("https://x/a.xyz", None)])
  ∧ promises (loadTextureData "https://x/a.xyz" ArgUndefined emptyHeap).2 = [].
Proof. vm_compute. repeat split. Qed.

(** ** Well-formed heaps *)

Lemma WF_no_callbacks (ps : list (Task * option Settled))
    (c : gmap (MapId * string) Entry) (l : list (string * option Headers)) :
  WF (mkHeap ps c [] [] l).
Proof.
  split; simpl.
  - intros p k Hin. by apply elem_of_nil in Hin.
  - intros k v Hin. by apply elem_of_nil in Hin.
  - constructor.
  - constructor.
Qed.

Lemma promiseState_app (ps ps' : list (Task * option Settled)) (p : PromiseId)
    (x : option Settled) :
  snd <$> ps !! p = Some x → snd <$> (ps ++ ps') !! p = Some x.
Proof.
  destruct (ps !! p) as [y|] eqn:Hp; [|done].
  intros Hx. by rewrite (lookup_app_l_Some _ _ _ _ Hp).
Qed.

(** Allocating promises and logging calls keep a heap well formed. *)
Lemma WF_extend (h h' : Heap) (ps' : list (Task * option Settled)) :
  WF h →
  promises h' = promises h ++ ps' → cells h' = cells h →
  reactions h' = reactions h → jobs h' = jobs h →
  WF h'.
Proof.
  intros [HR HJ HNR HNJ] Hp Hc Hr Hj. split; rewrite ?Hr, ?Hj, ?Hc; try done.
  - intros p k Hin. destruct (HR p k Hin) as [Hpend Hcell]. split; [|done].
    unfold promiseState. rewrite Hp. by apply promiseState_app.
  - intros k v Hin. destruct (HJ k v Hin) as (p & Hcell & Hful). exists p. split; [done|].
    unfold promiseState. rewrite Hp. by apply promiseState_app.
Qed.

Lemma WF_invoke (lf : LoadFunction) (url : string) (h : Heap) :
  WF h → WF (invoke lf url h).2.
Proof.
  intros Hwf. destruct (invoke_frame lf url h) as (Hc & Hr & Hj).
  by eapply WF_extend; [done | apply invoke_promises | ..].
Qed.

Lemma missPath_heap (lf : LoadFunction) (url : string) (m : MapId) (h : Heap) :
  (missPath lf url m h).2
  = match lf url None with
    | Throws _ => mkHeap (promises h) (cells h) (reactions h) (jobs h)
                    (calls h ++ [(url, None)])
    | Starts t =>
        mkHeap (promises h ++ [(t, None)])
          (<[(m, url) := InFlight (List.length (promises h))]> (cells h))
          (reactions h ++ [(List.length (promises h), (m, url))])
          (jobs h) (calls h ++ [(url, None)])
    end.
Proof.
  unfold missPath, invoke. destruct (lf url None) as [e|t]; simpl; [done|].
  unfold then_, promiseState. simpl. by rewrite list_lookup_middle.
Qed.

Lemma WF_missPath (lf : LoadFunction) (url : string) (m : MapId) (h : Heap) :
  WF h → (∀ p, cells h !! (m, url) ≠ Some (InFlight p)) →
  WF (missPath lf url m h).2.
Proof.
  intros Hwf Hmiss. rewrite missPath_heap. destruct (lf url None) as [e|t].
  - eapply (WF_extend h _ []); [done | by rewrite app_nil_r | done..].
  - destruct Hwf as [HR HJ HNR HNJ]. split; simpl.
    + intros p k Hin. apply elem_of_app in Hin as [Hin | Hin].
      * destruct (HR p k Hin) as [Hpend Hcell]. split.
        -- by apply promiseState_app.
        -- rewrite lookup_insert_ne; [done|]. intros <-. by apply (Hmiss p).
      * apply list_elem_of_singleton in Hin. injection Hin as -> ->. split.
        -- unfold promiseState. simpl. by rewrite list_lookup_middle.
        -- by rewrite lookup_insert_eq.
    + intros k v Hin. destruct (HJ k v Hin) as (p & Hcell & Hful). exists p. split.
      * rewrite lookup_insert_ne; [done|]. intros <-. by apply (Hmiss p).
      * by apply promiseState_app.
    + rewrite fmap_app. simpl. apply NoDup_app. split; [done|]. split; [|apply NoDup_singleton].
      intros k Hk Hk'. apply list_elem_of_singleton in Hk' as ->.
      apply list_elem_of_fmap in Hk as ([p k'] & Hkk & Hin). simpl in Hkk. subst k'.
      destruct (HR p _ Hin) as [_ Hcell]. by apply (Hmiss p).
    + done.
Qed.

Lemma bypass_heap (lf : LoadFunction) (url : string) (h : Heap) :
  (loadCached lf url ArgFalse h).2 = (invoke lf url h).2.
Proof. unfold loadCached, invoke. by destruct (lf url None). Qed.

Lemma WF_cached (lf : LoadFunction) (url : string) (m : MapId) (h : Heap) :
  WF h →
  WF (match Map_get m url h with
      | Some e => if entryTruthy e then (Return e, h) else missPath lf url m h
      | None => missPath lf url m h
      end).2.
Proof.
  intros Hwf. destruct (Map_get m url h) as [e|] eqn:He; unfold Map_get in He.
  - destruct (entryTruthy e) eqn:Ht; [done|].
    apply WF_missPath; [done|]. intros p Hp. rewrite He in Hp. by injection Hp as ->.
  - apply WF_missPath; [done|]. intros p Hp. by rewrite He in Hp.
Qed.

Lemma WF_loadCached (lf : LoadFunction) (url : string) (cache : CacheArg) (h : Heap) :
  WF h → WF (loadCached lf url cache h).2.
Proof.
  intros Hwf. destruct cache as [| |m|o].
  - rewrite (loadCached_cases lf url ArgUndefined DEFAULT_CACHE h eq_refl).
    by apply WF_cached.
  - rewrite bypass_heap. by apply WF_invoke.
  - rewrite (loadCached_cases lf url (ArgMap m) m h eq_refl). by apply WF_cached.
  - done.
Qed.

Lemma NoDup_fmap_filter {A B : Type} (f : A → B) (P : A → Prop)
    `{∀ x, Decision (P x)} (l : list A) :
  NoDup (f <$> l) → NoDup (f <$> filter P l).
Proof.
  induction l as [|x l IH]; simpl; [done|].
  rewrite NoDup_cons. intros [Hx Hl]. rewrite filter_cons.
  destruct (decide (P x)); simpl; [|auto].
  apply NoDup_cons. split; [|auto].
  intros Hin. apply Hx. apply list_elem_of_fmap in Hin as (y & Hy & Hin).
  apply list_elem_of_filter in Hin as [_ Hin]. rewrite Hy.
  by apply list_elem_of_fmap_2.
Qed.

Lemma jobs_of_reactions_keys (v : Value) (l : list (PromiseId * (MapId * string))) :
  ((λ r, (r.2, v)) <$> l).*1 = l.*2.
Proof. induction l as [|r l IH]; [done|]. simpl. f_equal. exact IH. Qed.

Lemma WF_settle (p : PromiseId) (s : Settled) (h : Heap) :
  WF h → WF (settle p s h).
Proof.
  intros Hwf. unfold settle.
  destruct (promises h !! p) as [[t [s0|]]|] eqn:Hp; try done.
  destruct Hwf as [HR HJ HNR HNJ].
  assert (promiseState h p = Some None) as Hpend.
  { unfold promiseState. by rewrite Hp. }
  assert (∀ q x, q ≠ p → promiseState h q = Some x →
          snd <$> <[p := (t, Some s)]> (promises h) !! q = Some x) as Hother.
  { intros q x Hq Hx. by rewrite list_lookup_insert_ne. }
  assert (snd <$> <[p := (t, Some s)]> (promises h) !! p = Some (Some s)) as Hnow.
  { rewrite list_lookup_insert_eq; [done|]. by eapply lookup_lt_Some. }
  assert (∀ q k, (q, k) ∈ filter (λ r, r.1 ≠ p) (reactions h) →
          snd <$> <[p := (t, Some s)]> (promises h) !! q = Some None
          ∧ cells h !! k = Some (InFlight q)) as HR'.
  { intros q k Hin. apply list_elem_of_filter in Hin as [Hq Hin]. simpl in Hq.
    destruct (HR q k Hin) as [Hqp Hcell]. split; [by apply Hother | done]. }
  assert (∀ k v, (k, v) ∈ jobs h →
          ∃ q, cells h !! k = Some (InFlight q)
               ∧ snd <$> <[p := (t, Some s)]> (promises h) !! q
                 = Some (Some (Fulfilled v))) as HJ'.
  { intros k v Hin. destruct (HJ k v Hin) as (q & Hcell & Hful).
    exists q. split; [done|]. apply Hother; [|done].
    intros ->. rewrite Hpend in Hful. done. }
  destruct s as [v|e]; split; simpl; try done.
  - intros k v' Hin. apply elem_of_app in Hin as [Hin | Hin]; [by apply HJ'|].
    apply list_elem_of_fmap in Hin as ([q k'] & Hkv & Hin). simpl in Hkv.
    injection Hkv as -> ->.
    apply list_elem_of_filter in Hin as [Hq Hin]. simpl in Hq. subst q.
    destruct (HR p k' Hin) as [_ Hcell]. by exists p.
  - by apply NoDup_fmap_filter.
  - rewrite fmap_app, jobs_of_reactions_keys. apply NoDup_app.
    split; [done|]. split; [|by apply NoDup_fmap_filter].
    intros k Hk Hk'.
    apply list_elem_of_fmap in Hk as ([k0 v0] & Hk0 & Hin). simpl in Hk0. subst k0.
    apply list_elem_of_fmap in Hk' as ([q k0] & Hk0 & Hin'). simpl in Hk0. subst k0.
    apply list_elem_of_filter in Hin' as [Hq Hin']. simpl in Hq. subst q.
    destruct (HJ k v0 Hin) as (q & Hcell & Hful).
    destruct (HR p k Hin') as [_ Hcell'].
    rewrite Hcell in Hcell'. injection Hcell' as ->.
    rewrite Hpend in Hful. done.
  - by apply NoDup_fmap_filter.
Qed.

Lemma WF_runJob (h : Heap) : WF h → WF (runJob h).
Proof.
  intros Hwf. unfold runJob. destruct (jobs h) as [|[k0 v0] js] eqn:Hjobs; [done|].
  destruct Hwf as [HR HJ HNR HNJ]. rewrite Hjobs in HJ, HNJ. simpl in HNJ.
  apply NoDup_cons in HNJ as [Hk0 HNJ].
  destruct (HJ k0 v0) as (p0 & Hcell0 & Hful0); [by left|].
  split; simpl; try done.
  - intros p k Hin. destruct (HR p k Hin) as [Hpend Hcell]. split; [done|].
    rewrite lookup_insert_ne; [done|]. intros <-.
    rewrite Hcell0 in Hcell. injection Hcell as ->. rewrite Hpend in Hful0. done.
  - intros k v Hin. destruct (HJ k v) as (p & Hcell & Hful); [by right|].
    exists p. split; [|done]. rewrite lookup_insert_ne; [done|]. intros <-.
    apply Hk0. by apply (list_elem_of_fmap_2 fst) in Hin.
Qed.

Lemma WF_step (h : Heap) (a : Action) : WF h → WF (step h a).
Proof.
  destruct a as [lf url cache | p s |]; simpl.
  - apply WF_loadCached.
  - apply WF_settle.
  - apply WF_runJob.
Qed.

Lemma run_cons (a : Action) (acts : list Action) (h : Heap) :
  run (a :: acts) h = run acts (step h a).
Proof. reflexivity. Qed.

Lemma run_app (acts acts' : list Action) (h : Heap) :
  run (acts ++ acts') h = run acts' (run acts h).
Proof. apply foldl_app. Qed.

Lemma WF_run (acts : list Action) (h : Heap) : WF h → WF (run acts h).
Proof.
  revert h. induction acts as [|a acts IH]; intros h Hwf; [done|].
  rewrite run_cons. apply IH. by apply WF_step.
Qed.

(** Every heap reached from the empty one is well formed. *)
Lemma WF_reachable (acts : list Action) : WF (run acts emptyHeap).
Proof. apply WF_run. apply WF_no_callbacks. Qed.

(** ** Stability of cache entries *)

Lemma settle_cells (p : PromiseId) (s : Settled) (h : Heap) :
  cells (settle p s h) = cells h.
Proof.
  unfold settle. destruct (promises h !! p) as [[t [s0|]]|]; try done.
  by destruct s.
Qed.

Lemma settle_calls (p : PromiseId) (s : Settled) (h : Heap) :
  calls (settle p s h) = calls h.
Proof.
  unfold settle. destruct (promises h !! p) as [[t [s0|]]|]; try done.
  by destruct s.
Qed.

Lemma settle_pending (p : PromiseId) (s : Settled) (h : Heap) :
  promiseState h p = Some None →
  promiseState (settle p s h) p = Some (Some s).
Proof.
  unfold promiseState, settle. intros Hp.
  destruct (promises h !! p) as [[t [s0|]]|] eqn:Hl; try done.
  assert (snd <$> <[p := (t, Some s)]> (promises h) !! p = Some (Some s)) as Hnow.
  { rewrite list_lookup_insert_eq; [done|]. by eapply lookup_lt_Some. }
  by destruct s.
Qed.

(** A settled promise stays as it is. *)
Lemma settled_step (h : Heap) (a : Action) (p : PromiseId) (s : Settled) :
  promiseState h p = Some (Some s) → promiseState (step h a) p = Some (Some s).
Proof.
  intros Hp. destruct a as [lf url cache | q s' |]; simpl.
  - unfold promiseState.
    destruct (loadCached_promises lf url cache h) as [-> | (t & _ & ->)]; [done|].
    by apply promiseState_app.
  - unfold promiseState, settle in *.
    destruct (promises h !! q) as [[t [s0|]]|] eqn:Hq; try done.
    assert (q ≠ p) as Hne.
    { intros ->. rewrite Hq in Hp. done. }
    destruct s'; simpl; by rewrite list_lookup_insert_ne.
  - unfold runJob. by destruct (jobs h) as [|[k v] js].
Qed.

Lemma settled_run (acts : list Action) (h : Heap) (p : PromiseId) (s : Settled) :
  promiseState h p = Some (Some s) → promiseState (run acts h) p = Some (Some s).
Proof.
  revert h. induction acts as [|a acts IH]; intros h Hp; [done|].
  rewrite run_cons. apply IH. by apply settled_step.
Qed.

(** A cell that holds a promise keeps it across a step, unless the promise
    is fulfilled and the step runs its callback. *)
Lemma cell_step (h : Heap) (a : Action) (k : MapId * string) (p : PromiseId) :
  WF h → cells h !! k = Some (InFlight p) →
  cells (step h a) !! k = Some (InFlight p)
  ∨ ∃ v, promiseState h p = Some (Some (Fulfilled v)).
Proof.
  intros Hwf Hcell.
  assert (∀ lf url m,
            cells (match Map_get m url h with
                   | Some e => if entryTruthy e then (Return e, h)
                               else missPath lf url m h
                   | None => missPath lf url m h
                   end).2 !! k = Some (InFlight p)) as Hcached.
  { intros lf url m. destruct (decide ((m, url) = k)) as [<- | Hne].
    - unfold Map_get. by rewrite Hcell.
    - assert (cells (missPath lf url m h).2 !! k = Some (InFlight p)) as Hmiss.
      { rewrite missPath_heap. destruct (lf url None); simpl; [done|].
        by rewrite lookup_insert_ne. }
      destruct (Map_get m url h) as [e|]; [destruct (entryTruthy e)|]; done. }
  destruct a as [lf url cache | q s |]; simpl.
  - left. destruct cache as [| |m|o].
    + rewrite (loadCached_cases lf url ArgUndefined DEFAULT_CACHE h eq_refl).
      apply Hcached.
    + rewrite bypass_heap. destruct (invoke_frame lf url h) as (-> & _). done.
    + rewrite (loadCached_cases lf url (ArgMap m) m h eq_refl). apply Hcached.
    + done.
  - left. by rewrite settle_cells.
  - unfold runJob. destruct (jobs h) as [|[k0 v0] js] eqn:Hjobs; [by left|]. simpl.
    destruct (decide (k0 = k)) as [-> | Hne].
    + right. exists v0. destruct (wf_jobs h Hwf k v0) as (q & Hq & Hful).
      { rewrite Hjobs. by left. }
      rewrite Hcell in Hq. by injection Hq as <-.
    + left. by rewrite lookup_insert_ne.
Qed.

Lemma cell_stable (acts : list Action) (h : Heap) (k : MapId * string) (p : PromiseId) :
  WF h → cells h !! k = Some (InFlight p) →
  (∀ v, promiseState (run acts h) p ≠ Some (Some (Fulfilled v))) →
  cells (run acts h) !! k = Some (InFlight p).
Proof.
  revert h. induction acts as [|a acts IH]; intros h Hwf Hcell Hnot; [done|].
  rewrite run_cons in *.
  destruct (cell_step h a k p Hwf Hcell) as [Hstep | [v Hful]].
  - apply IH; [by apply WF_step | done | done].
  - destruct (Hnot v). apply settled_run. by apply settled_step.
Qed.

(** A call that finds a promise under its key returns it and does nothing. *)
Lemma loadCached_promise_hit (lf : LoadFunction) (url : string) (cache : CacheArg)
    (m : MapId) (h : Heap) (p : PromiseId) :
  cacheOf cache = Some m → cells h !! (m, url) = Some (InFlight p) →
  loadCached lf url cache h = (Return (InFlight p), h).
Proof.
  intros Hc Hcell. rewrite (loadCached_cases _ _ _ _ _ Hc). unfold Map_get.
  by rewrite Hcell.
Qed.

(** A call that finds no truthy entry and whose loader starts a task. *)
Lemma loadCached_miss (lf : LoadFunction) (url : string) (cache : CacheArg)
    (m : MapId) (h : Heap) (t : Task) :
  cacheOf cache = Some m →
  (∀ e, Map_get m url h = Some e → entryTruthy e = false) →
  lf url None = Starts t →
  loadCached lf url cache h
  = (Return (InFlight (List.length (promises h))),
     mkHeap (promises h ++ [(t, None)])
       (<[(m, url) := InFlight (List.length (promises h))]> (cells h))
       (reactions h ++ [(List.length (promises h), (m, url))])
       (jobs h) (calls h ++ [(url, None)])).
Proof.
  intros Hc Hfalsy Ht. rewrite (loadCached_cases _ _ _ _ _ Hc).
  assert (missPath lf url m h
          = (Return (InFlight (List.length (promises h))),
             mkHeap (promises h ++ [(t, None)])
               (<[(m, url) := InFlight (List.length (promises h))]> (cells h))
               (reactions h ++ [(List.length (promises h), (m, url))])
               (jobs h) (calls h ++ [(url, None)]))) as Hmiss.
  { pose proof (missPath_heap lf url m h) as Hh. rewrite Ht in Hh. rewrite <- Hh.
    unfold missPath, invoke. by rewrite Ht. }
  destruct (Map_get m url h) as [e|] eqn:He; [|done].
  by rewrite (Hfalsy e eq_refl).
Qed.

(** ** Deduplication and replay *)

(** C4. A call that finds no truthy entry under the URL invokes the loader
    once, stores its promise and returns it. Whatever happens next (other
    calls through any wrapper, settlements, callbacks), as long as that
    promise is pending a call with the same URL and the same cache returns the
    very same promise and changes nothing, so the loader is not invoked again
    and both callers settle together; and no cache cell ever has two loads
    in flight. *)
Theorem concurrent_calls_share_one_load
    (lf lf' : LoadFunction) (url : string) (cache : CacheArg) (m : MapId)
    (h : Heap) (t : Task) (acts : list Action) :
  WF h →
  cacheOf cache = Some m →
  (∀ e, Map_get m url h = Some e → entryTruthy e = false) →
  lf url None = Starts t →
  promiseState (run acts (loadCached lf url cache h).2) (List.length (promises h))
  = Some None →
  (loadCached lf url cache h).1 = Return (InFlight (List.length (promises h)))
  ∧ calls (loadCached lf url cache h).2 = calls h ++ [(url, None)]
  ∧ loadCached lf' url cache (run acts (loadCached lf url cache h).2)
    = (Return (InFlight (List.length (promises h))),
       run acts (loadCached lf url cache h).2)
  ∧ (∀ q q' k,
       (q, k) ∈ reactions (run acts (loadCached lf url cache h).2) →
       (q', k) ∈ reactions (run acts (loadCached lf url cache h).2) →
       q = q').
Proof.
  intros Hwf Hc Hfalsy Ht Hpend.
  pose proof (WF_loadCached lf url cache h Hwf) as Hwf1.
  rewrite (loadCached_miss lf url cache m h t Hc Hfalsy Ht) in *. simpl in *.
  split; [done|]. split; [done|]. split.
  - apply (loadCached_promise_hit lf' url cache m); [done|].
    apply cell_stable; [done | | ].
    + simpl. by rewrite lookup_insert_eq.
    + intros v Hful. rewrite Hpend in Hful. done.
  - intros q q' k Hq Hq'. pose proof (WF_run acts _ Hwf1) as Hwf2.
    destruct (wf_reactions _ Hwf2 q k Hq) as [_ Hcell].
    destruct (wf_reactions _ Hwf2 q' k Hq') as [_ Hcell'].
    rewrite Hcell in Hcell'. by injection Hcell' as ->.
Qed.

Lemma concurrent_calls_share_one_load_witness :
  (loadTextureData "https://x/a.png" ArgUndefined emptyHeap).1 = Return (InFlight 0)
  ∧ calls (loadTextureData "https://x/a.png" ArgUndefined emptyHeap).2
    = [("https://x/a.png", None)]
  ∧ loadTextureData "https://x/a.png" ArgUndefined
      (run [Call jsonLoadFunction "https://x/b.json" ArgUndefined;
            Settle 1 (Fulfilled VNull); RunJob]
         (loadTextureData "https://x/a.png" ArgUndefined emptyHeap).2)
    = (Return (InFlight 0),
       run [Call jsonLoadFunction "https://x/b.json" ArgUndefined;
            Settle 1 (Fulfilled VNull); RunJob]
         (loadTextureData "https://x/a.png" ArgUndefined emptyHeap).2)
  ∧ (∀ q q' k,
       (q, k) ∈ reactions
         (run [Call jsonLoadFunction "https://x/b.json" ArgUndefined;
               Settle 1 (Fulfilled VNull); RunJob]
            (loadTextureData "https://x/a.png" ArgUndefined emptyHeap).2) →
       (q', k) ∈ reactions
         (run [Call jsonLoadFunction "https://x/b.json" ArgUndefined;
               Settle 1 (Fulfilled VNull); RunJob]
            (loadTextureData "https://x/a.png" ArgUndefined emptyHeap).2) →
       q = q').
Proof.
  apply (concurrent_calls_share_one_load textureLoadFunction textureLoadFunction
           "https://x/a.png" ArgUndefined DEFAULT_CACHE emptyHeap
           (LoadImage "https://x/a.png" None)).
  - apply WF_no_callbacks.
  - reflexivity.
  - intros e He. vm_compute in He. discriminate.
  - reflexivity.
  - vm_compute. reflexivity.
Defined.

(** C10. A failed load stays cached. When the promise a cache cell holds is
    rejected, no callback runs and the cell is not overwritten; from then on,
    whatever else happens, every call with that URL and cache returns the same
    rejected promise and changes nothing, so the loader is not invoked
    again. *)
Theorem rejected_load_is_replayed
    (lf : LoadFunction) (url : string) (cache : CacheArg) (m : MapId)
    (h : Heap) (p : PromiseId) (e : Thrown) (acts : list Action) :
  WF h →
  cacheOf cache = Some m →
  Map_get m url h = Some (InFlight p) →
  promiseState h p = Some None →
  cells (settle p (Rejected e) h) = cells h
  ∧ jobs (settle p (Rejected e) h) = jobs h
  ∧ promiseState (run acts (settle p (Rejected e) h)) p = Some (Some (Rejected e))
  ∧ loadCached lf url cache (run acts (settle p (Rejected e) h))
    = (Return (InFlight p), run acts (settle p (Rejected e) h)).
Proof.
  intros Hwf Hc Hcell Hpend.
  pose proof (settle_pending p (Rejected e) h Hpend) as Hrej.
  pose proof (settled_run acts _ p _ Hrej) as Hrej'.
  split; [apply settle_cells|]. split.
  { unfold settle. by destruct (promises h !! p) as [[t [s0|]]|]. }
  split; [done|].
  apply (loadCached_promise_hit lf url cache m); [done|].
  apply cell_stable.
  - by apply WF_settle.
  - by rewrite settle_cells.
  - intros v Hful. rewrite Hrej' in Hful. done.
Qed.

Lemma rejected_load_is_replayed_witness :
  cells (settle 0 (Rejected decodeFailure)
           (run [Call textureLoadFunction "https://x/a.png" ArgUndefined] emptyHeap))
  = cells (run [Call textureLoadFunction "https://x/a.png" ArgUndefined] emptyHeap)
  ∧ jobs (settle 0 (Rejected decodeFailure)
            (run [Call textureLoadFunction "https://x/a.png" ArgUndefined] emptyHeap))
    = jobs (run [Call textureLoadFunction "https://x/a.png" ArgUndefined] emptyHeap)
  ∧ promiseState
      (run [RunJob; Call textureLoadFunction "https://x/a.png" ArgUndefined]
         (settle 0 (Rejected decodeFailure)
            (run [Call textureLoadFunction "https://x/a.png" ArgUndefined] emptyHeap)))
      0
    = Some (Some (Rejected decodeFailure))
  ∧ loadCached textureLoadFunction "https://x/a.png" ArgUndefined
      (run [RunJob; Call textureLoadFunction "https://x/a.png" ArgUndefined]
         (settle 0 (Rejected decodeFailure)
            (run [Call textureLoadFunction "https://x/a.png" ArgUndefined] emptyHeap)))
    = (Return (InFlight 0),
       run [RunJob; Call textureLoadFunction "https://x/a.png" ArgUndefined]
         (settle 0 (Rejected decodeFailure)
            (run [Call textureLoadFunction "https://x/a.png" ArgUndefined] emptyHeap))).
Proof.
  apply (rejected_load_is_replayed textureLoadFunction "https://x/a.png"
           ArgUndefined DEFAULT_CACHE).
  - apply WF_reachable.
  - reflexivity.
  - vm_compute. reflexivity.
  - vm_compute. reflexivity.
Defined.

(** ** A bypassing load never reaches a cache *)

Lemma missPath_reactions (lf : LoadFunction) (url : string) (m : MapId) (h : Heap) :
  reactions (missPath lf url m h).2 = reactions h
  ∨ reactions (missPath lf url m h).2
    = reactions h ++ [(List.length (promises h), (m, url))].
Proof. rewrite missPath_heap. destruct (lf url None); simpl; auto. Qed.

Lemma loadCached_reactions (lf : LoadFunction) (url : string) (cache : CacheArg) (h : Heap) :
  reactions (loadCached lf url cache h).2 = reactions h
  ∨ ∃ k, reactions (loadCached lf url cache h).2
         = reactions h ++ [(List.length (promises h), k)].
Proof.
  assert (∀ m, reactions (missPath lf url m h).2 = reactions h
               ∨ ∃ k, reactions (missPath lf url m h).2
                      = reactions h ++ [(List.length (promises h), k)]) as Hmiss.
  { intros m. destruct (missPath_reactions lf url m h); eauto. }
  destruct cache as [| |m|o].
  - rewrite (loadCached_cases lf url ArgUndefined DEFAULT_CACHE h eq_refl).
    destruct (Map_get DEFAULT_CACHE url h) as [e|]; [destruct (entryTruthy e)|]; auto.
  - left. rewrite bypass_heap. by destruct (invoke_frame lf url h) as (_ & -> & _).
  - rewrite (loadCached_cases lf url (ArgMap m) m h eq_refl).
    destruct (Map_get m url h) as [e|]; [destruct (entryTruthy e)|]; auto.
  - by left.
Qed.

Lemma callbackFree_step (p : PromiseId) (h : Heap) (a : Action) :
  callbackFree p h → callbackFree p (step h a).
Proof.
  intros [Hlt Hfree]. destruct a as [lf url cache | q s |]; simpl.
  - split.
    + destruct (loadCached_promises lf url cache h) as [-> | (t & _ & ->)]; [done|].
      rewrite length_app. lia.
    + intros k Hin.
      destruct (loadCached_reactions lf url cache h) as [Hr | [k' Hr]];
        rewrite Hr in Hin; [by apply (Hfree k)|].
      apply elem_of_app in Hin as [Hin | Hin]; [by apply (Hfree k)|].
      apply list_elem_of_singleton in Hin. injection Hin as -> _. lia.
  - unfold settle. destruct (promises h !! q) as [[t [s0|]]|] eqn:Hq; try done.
    assert (∀ k, (p, k) ∉ filter (λ r, r.1 ≠ q) (reactions h)) as Hfree'.
    { intros k Hin. apply list_elem_of_filter in Hin as [_ Hin]. by apply (Hfree k). }
    destruct s; split; simpl; try done; by rewrite length_insert.
  - unfold runJob. by destruct (jobs h) as [|[k v] js].
Qed.

Lemma callbackFree_run (p : PromiseId) (acts : list Action) (h : Heap) :
  callbackFree p h → callbackFree p (run acts h).
Proof.
  revert h. induction acts as [|a acts IH]; intros h Hfree; [done|].
  rewrite run_cons. apply IH. by apply callbackFree_step.
Qed.

Lemma settle_callbackFree (p : PromiseId) (s : Settled) (h : Heap) :
  callbackFree p h →
  jobs (settle p s h) = jobs h ∧ cells (settle p s h) = cells h.
Proof.
  intros [_ Hfree]. split; [|apply settle_cells].
  unfold settle. destruct (promises h !! p) as [[t [s0|]]|]; try done.
  destruct s as [v|e]; simpl; [|done].
  assert (filter (λ r, r.1 = p) (reactions h) = []) as ->.
  { apply elem_of_nil_inv. intros [q k] Hin.
    apply list_elem_of_filter in Hin as [Hq Hin]. simpl in Hq. subst q.
    by apply (Hfree k). }
  simpl. apply app_nil_r.
Qed.

(** X7. The promise of a load made with [false] as the cache never gets a
    callback: whatever happens after the call, its settlement queues nothing
    and writes no cache cell. *)
Lemma bypass_never_populates (lf : LoadFunction) (url : string) (h : Heap)
    (t : Task) (acts : list Action) (s : Settled) :
  WF h → lf url None = Starts t →
  jobs (settle (List.length (promises h)) s (run acts (loadCached lf url ArgFalse h).2))
  = jobs (run acts (loadCached lf url ArgFalse h).2)
  ∧ cells (settle (List.length (promises h)) s (run acts (loadCached lf url ArgFalse h).2))
    = cells (run acts (loadCached lf url ArgFalse h).2).
Proof.
  intros Hwf Ht. apply settle_callbackFree, callbackFree_run.
  rewrite bypass_heap. split.
  - rewrite invoke_promises, Ht, length_app. simpl. lia.
  - destruct (invoke_frame lf url h) as (_ & -> & _). intros k Hin.
    destruct (wf_reactions h Hwf _ k Hin) as [Hpend _].
    unfold promiseState in Hpend.
    apply fmap_Some in Hpend as (x & Hl & _).
    apply lookup_lt_Some in Hl. lia.
Qed.

(** ** Raster decoder: which failures are rewrapped *)

Ltac run_async :=
  unfold loadGeotiff, loadImage, decodeImage, fetchJson,
    Env.bind, Env.await, Env.tryCatch, Env.throw, Env.ret, Env.emit, Env.when,
    Env.newArray; simpl.

(** C8 (amended). When [GeoTIFF.fromUrl] fails, with or without headers,
    [loadGeotiff] rejects with the error "Image <url> can't be decoded.",
    whose message contains the URL and whose cause is the original failure;
    nothing else happens. *)
Theorem fromUrl_failure_is_rewrapped (g : GeotiffLib) (url : string)
    (headers : option Headers) (w : World) (e : Thrown) :
  getLibrary g = inr tt →
  fromUrl g url (fromUrlOptions headers) = inl e →
  loadGeotiff g url headers w = (inl (decodeError url e), w)
  ∧ ∃ message, decodeError url e = Error message (Some e) ∧ Contains message url.
Proof.
  intros Hlib Hfrom. split.
  - run_async. rewrite Hlib. destruct headers as [hs|]; unfold fromUrlOptions in Hfrom;
      simpl in Hfrom; by rewrite Hfrom.
  - eexists. split; [reflexivity|]. apply Contains_append_middle.
Qed.

Lemma fromUrl_failure_is_rewrapped_witness :
  loadGeotiff unreachableLib "https://x/a.tif" (Some authHeaders) (mkWorld [] [])
  = (inl (decodeError "https://x/a.tif" (External "404 Not Found")), mkWorld [] [])
  ∧ ∃ message,
      decodeError "https://x/a.tif" (External "404 Not Found")
      = Error message (Some (External "404 Not Found"))
      ∧ Contains message "https://x/a.tif".
Proof.
  apply (fromUrl_failure_is_rewrapped unreachableLib "https://x/a.tif"
           (Some authHeaders) (mkWorld [] []) (External "404 Not Found")).
  - reflexivity.
  - reflexivity.
Defined.

(** C8 as stated fails: the [try] of lines 91-107 covers [fromUrl] alone. A
    failure of [getImage(0)] or of [readRasters], which parse the file's
    directory and its raster data, rejects [loadGeotiff] with the library's
    own error, not with a decode error naming the URL. *)
Lemma parse_failure_escapes_counterexample :
  loadGeotiff badDirectoryLib "https://x/a.tif" None (mkWorld [] [])
  = (inl (External "Invalid IFD"), mkWorld [] [])
  ∧ loadGeotiff badStripsLib "https://x/a.tif" None (mkWorld [] [])
    = (inl (External "Unknown compression method"), mkWorld [] []).
Proof. split; reflexivity. Qed.

(** The general form: failures after [fromUrl] are passed on as they are. *)
Lemma getImage_failure_escapes (g : GeotiffLib) (url : string)
    (headers : option Headers) (w : World) (geotiff : Handle) (e : Thrown) :
  getLibrary g = inr tt →
  fromUrl g url (fromUrlOptions headers) = inr geotiff →
  getImage g geotiff 0 = inl e →
  loadGeotiff g url headers w = (inl e, w).
Proof.
  intros Hlib Hfrom Himg. run_async. rewrite Hlib.
  destruct headers as [hs|]; unfold fromUrlOptions in Hfrom; simpl in Hfrom;
    by rewrite Hfrom, Himg.
Qed.

Lemma readRasters_failure_escapes (g : GeotiffLib) (url : string)
    (headers : option Headers) (w : World) (geotiff : Handle) (image : GeoImage)
    (e : Thrown) :
  getLibrary g = inr tt →
  fromUrl g url (fromUrlOptions headers) = inr geotiff →
  getImage g geotiff 0 = inr image →
  readRasters g image = inl e →
  loadGeotiff g url headers w = (inl e, w).
Proof.
  intros Hlib Hfrom Himg Hread. run_async. rewrite Hlib.
  destruct headers as [hs|]; unfold fromUrlOptions in Hfrom; simpl in Hfrom;
    by rewrite Hfrom, Himg, Hread.
Qed.

(** X15. When every step succeeds, the texture holds the masked copy of the
    samples, in an array of its own, with the size the library reports. *)
Lemma loadGeotiff_success (g : GeotiffLib) (url : string) (headers : option Headers)
    (w : World) (geotiff : Handle) (image : GeoImage) (a : TextureDataArray)
    (s : float) :
  getLibrary g = inr tt →
  fromUrl g url (fromUrlOptions headers) = inr geotiff →
  getImage g geotiff 0 = inr image →
  readRasters g image = inr (Supported a) →
  getGDALNoData g image = Some s →
  loadGeotiff g url headers w
  = (inr (mkTextureData (S (List.length (store w))) (getWidth g image) (getHeight g image)),
     mkWorld (store w ++ [a; masked s a]) (events w)).
Proof.
  intros Hlib Hfrom Himg Hread Hnodata. run_async. rewrite Hlib.
  assert (maskData (store w ++ [a]) (List.length (store w)) (Some s)
          = Some (S (List.length (store w)), store w ++ [a; masked s a])) as Hmask.
  { unfold maskData. rewrite list_lookup_middle by done. simpl.
    rewrite maskLoop_masked. unfold TypedArray.alloc.
    rewrite length_app, Nat.add_1_r, <- app_assoc. done. }
  destruct headers as [hs|]; unfold fromUrlOptions in Hfrom; simpl in Hfrom;
    rewrite Hfrom, Himg, Hread; simpl; by rewrite Hnodata, Hmask.
Qed.

(** X16. Without a declared nodata value the texture holds the array that
    [readRasters] returned, itself. *)
Lemma loadGeotiff_no_nodata (g : GeotiffLib) (url : string) (headers : option Headers)
    (w : World) (geotiff : Handle) (image : GeoImage) (a : TextureDataArray) :
  getLibrary g = inr tt →
  fromUrl g url (fromUrlOptions headers) = inr geotiff →
  getImage g geotiff 0 = inr image →
  readRasters g image = inr (Supported a) →
  getGDALNoData g image = None →
  loadGeotiff g url headers w
  = (inr (mkTextureData (List.length (store w)) (getWidth g image) (getHeight g image)),
     mkWorld (store w ++ [a]) (events w)).
Proof.
  intros Hlib Hfrom Himg Hread Hnodata. run_async. rewrite Hlib.
  destruct headers as [hs|]; unfold fromUrlOptions in Hfrom; simpl in Hfrom;
    rewrite Hfrom, Himg, Hread; simpl; by rewrite Hnodata.
Qed.

Example loadGeotiff_example :
  loadGeotiff floatRasterLib "https://x/a.tif" None (mkWorld [] [])
  = (inr (mkTextureData 1 3 1),
     mkWorld [Float32Array [1.5%float; (-9999)%float; 3%float];
              Float32Array [1.5%float; PrimFloat.nan; 3%float]] []).
Proof. vm_compute. reflexivity. Qed.

(** ** Image decoder: object URLs *)

(** The two paths on which the code does revoke: success, and a failure of
    [image.decode()]. *)

(** X12. Whenever [loadImage] with headers fulfils, it has created one object
    URL and revoked that same URL, and nothing else. *)
Lemma loadImage_success_revokes (b : Browser) (url : string) (hs : Headers)
    (w w' : World) (t : TextureData) :
  loadImage b url (Some hs) w = (inr t, w') →
  ∃ blobUrl,
    events w' = events w ++ [CreateObjectURL blobUrl; RevokeObjectURL blobUrl].
Proof.
  run_async. destruct (fetch b url (Some hs)) as [e|response]; [done|].
  destruct (ok response); simpl; [|done].
  destruct (blob response) as [e|bl]; [done|].
  destruct (decode b (createObjectURL b bl)) as [e|[iw ih]]; simpl; [done|].
  destruct (getContext2d b iw ih); simpl; [|done].
  destruct (getImageData b (createObjectURL b bl) iw ih) as [e|img]; simpl; [done|].
  intros [= <- <-]. simpl. exists (createObjectURL b bl). by rewrite <- app_assoc.
Qed.

(** X13. With headers, when the response is fetched and [image.decode()]
    fails, [loadImage] rejects with "Image <url> can't be decoded." carrying
    the failure as its cause, and the object URL has been revoked. *)
Lemma loadImage_decode_failure_revokes (b : Browser) (url : string) (hs : Headers)
    (w : World) (response : Response) (bl : Blob) (e : Thrown) :
  fetch b url (Some hs) = inr response → ok response = true →
  blob response = inr bl →
  decode b (createObjectURL b bl) = inl e →
  loadImage b url (Some hs) w
  = (inl (decodeError url e),
     mkWorld (store w)
       (events w ++ [CreateObjectURL (createObjectURL b bl);
                     RevokeObjectURL (createObjectURL b bl)])).
Proof.
  intros Hf Hok Hb Hd. run_async. rewrite Hf, Hok. simpl. rewrite Hb, Hd. simpl.
  by rewrite <- app_assoc.
Qed.

(** X14. Without headers no object URL is made at all, on any path. *)
Lemma loadImage_no_headers_no_events (b : Browser) (url : string) (w : World) :
  events (loadImage b url None w).2 = events w.
Proof.
  run_async. destruct (decode b url) as [e|[iw ih]]; simpl; [done|].
  destruct (getContext2d b iw ih); simpl; [|done].
  by destruct (getImageData b url iw ih) as [e|img].
Qed.



(** *** Object URLs in the program as a whole *)








(** * Further properties of the memoizing wrapper *)

(** ** What one call can write *)

Lemma missPath_cells_ne (lf : LoadFunction) (url : string) (m : MapId) (h : Heap)
    (k : MapId * string) :
  k ≠ (m, url) → cells (missPath lf url m h).2 !! k = cells h !! k.
Proof.
  intros Hne. rewrite missPath_heap. destruct (lf url None); simpl; [done|].
  by rewrite lookup_insert_ne.
Qed.

(** X1. A call writes at most the one cell named by its cache and URL: the
    entries under every other URL of that cache, and every entry of every
    other cache, are as before. *)
Theorem loadCached_writes_one_cell (lf : LoadFunction) (url : string)
    (cache : CacheArg) (h : Heap) (k : MapId * string) :
  (∀ m, cacheOf cache = Some m → k ≠ (m, url)) →
  cells (loadCached lf url cache h).2 !! k = cells h !! k.
Proof.
  intros Hne.
  assert (∀ m, k ≠ (m, url) →
          cells (match Map_get m url h with
                 | Some e => if entryTruthy e then (Return e, h)
                             else missPath lf url m h
                 | None => missPath lf url m h
                 end).2 !! k = cells h !! k) as Hcached.
  { intros m Hk. pose proof (missPath_cells_ne lf url m h k Hk) as Hmiss.
    destruct (Map_get m url h) as [e|]; [destruct (entryTruthy e)|]; done. }
  destruct cache as [| |m|o].
  - rewrite (loadCached_cases lf url ArgUndefined DEFAULT_CACHE h eq_refl).
    apply Hcached. by apply Hne.
  - rewrite bypass_heap. by destruct (invoke_frame lf url h) as (-> & _).
  - rewrite (loadCached_cases lf url (ArgMap m) m h eq_refl).
    apply Hcached. by apply Hne.
  - done.
Qed.

Lemma loadCached_writes_one_cell_witness :
  cells (loadCached jsonLoadFunction "https://x/a.json" (ArgMap 1)
           (mkHeap [] {[ (1, "https://x/b.json") := Resolved VNull ]} [] [] [])).2
    !! (1, "https://x/b.json")
  = cells (mkHeap [] {[ (1, "https://x/b.json") := Resolved VNull ]} [] [] [])
      !! (1, "https://x/b.json").
Proof.
  apply (loadCached_writes_one_cell jsonLoadFunction "https://x/a.json" (ArgMap 1)).
  intros m Hm. injection Hm as <-. intros Heq. injection Heq as Heq. discriminate.
Defined.

(** ** Resolved entries *)

Lemma resolved_step (h : Heap) (a : Action) (k : MapId * string) (v : Value) :
  WF h → cells h !! k = Some (Resolved v) → truthy v = true →
  cells (step h a) !! k = Some (Resolved v).
Proof.
  intros Hwf Hcell Htruthy.
  assert (∀ lf url m,
            cells (match Map_get m url h with
                   | Some e => if entryTruthy e then (Return e, h)
                               else missPath lf url m h
                   | None => missPath lf url m h
                   end).2 !! k = Some (Resolved v)) as Hcached.
  { intros lf url m. destruct (decide (k = (m, url))) as [-> | Hne].
    - unfold Map_get. rewrite Hcell. simpl. by rewrite Htruthy.
    - pose proof (missPath_cells_ne lf url m h k Hne) as Hmiss. rewrite Hcell in Hmiss.
      destruct (Map_get m url h) as [e|]; [destruct (entryTruthy e)|]; done. }
  destruct a as [lf url cache | q s |]; simpl.
  - destruct cache as [| |m|o].
    + rewrite (loadCached_cases lf url ArgUndefined DEFAULT_CACHE h eq_refl).
      apply Hcached.
    + rewrite bypass_heap. by destruct (invoke_frame lf url h) as (-> & _).
    + rewrite (loadCached_cases lf url (ArgMap m) m h eq_refl). apply Hcached.
    + done.
  - by rewrite settle_cells.
  - unfold runJob. destruct (jobs h) as [|[k0 v0] js] eqn:Hjobs; [done|]. simpl.
    destruct (decide (k0 = k)) as [-> | Hne]; [|by rewrite lookup_insert_ne].
    destruct (wf_jobs h Hwf k v0) as (q & Hq & _).
    { rewrite Hjobs. by left. }
    rewrite Hcell in Hq. done.
Qed.

Lemma resolved_stable (acts : list Action) (h : Heap) (k : MapId * string) (v : Value) :
  WF h → cells h !! k = Some (Resolved v) → truthy v = true →
  cells (run acts h) !! k = Some (Resolved v).
Proof.
  revert h. induction acts as [|a acts IH]; intros h Hwf Hcell Htruthy; [done|].
  rewrite run_cons. apply IH; [by apply WF_step | by apply resolved_step | done].
Qed.

Lemma loadCached_value_hit (lf : LoadFunction) (url : string) (cache : CacheArg)
    (m : MapId) (h : Heap) (v : Value) :
  cacheOf cache = Some m → cells h !! (m, url) = Some (Resolved v) →
  truthy v = true →
  loadCached lf url cache h = (Return (Resolved v), h).
Proof.
  intros Hc Hcell Htruthy. rewrite (loadCached_cases _ _ _ _ _ Hc). unfold Map_get.
  rewrite Hcell. simpl. by rewrite Htruthy.
Qed.

(** X2. A cached value is kept for good. Once a cell holds a truthy resolved
    value, no sequence of calls, settlements and callbacks replaces or removes
    it: every later call with that URL and cache returns the same value and
    never invokes the loader (there is no expiry and no refresh). *)
Theorem resolved_entry_is_permanent (lf : LoadFunction) (url : string)
    (cache : CacheArg) (m : MapId) (h : Heap) (v : Value) (acts : list Action) :
  WF h →
  cacheOf cache = Some m →
  Map_get m url h = Some (Resolved v) →
  truthy v = true →
  Map_get m url (run acts h) = Some (Resolved v)
  ∧ loadCached lf url cache (run acts h) = (Return (Resolved v), run acts h).
Proof.
  intros Hwf Hc Hcell Htruthy.
  pose proof (resolved_stable acts h (m, url) v Hwf Hcell Htruthy) as Hstable.
  split; [done|]. by apply (loadCached_value_hit lf url cache m).
Qed.

Lemma resolved_entry_is_permanent_witness :
  Map_get 2 "https://x/a.json"
    (run [Call jsonLoadFunction "https://x/a.json" ArgFalse;
          Call jsonLoadFunction "https://x/b.json" (ArgMap 2);
          Settle 1 (Fulfilled VNull); RunJob]
       (mkHeap [] {[ (2, "https://x/a.json") := Resolved (VBool true) ]} [] [] []))
  = Some (Resolved (VBool true))
  ∧ loadCached textureLoadFunction "https://x/a.json" (ArgMap 2)
      (run [Call jsonLoadFunction "https://x/a.json" ArgFalse;
            Call jsonLoadFunction "https://x/b.json" (ArgMap 2);
            Settle 1 (Fulfilled VNull); RunJob]
         (mkHeap [] {[ (2, "https://x/a.json") := Resolved (VBool true) ]} [] [] []))
    = (Return (Resolved (VBool true)),
       run [Call jsonLoadFunction "https://x/a.json" ArgFalse;
            Call jsonLoadFunction "https://x/b.json" (ArgMap 2);
            Settle 1 (Fulfilled VNull); RunJob]
         (mkHeap [] {[ (2, "https://x/a.json") := Resolved (VBool true) ]} [] [] [])).
Proof.
  apply (resolved_entry_is_permanent textureLoadFunction "https://x/a.json" (ArgMap 2) 2).
  - apply WF_no_callbacks.
  - reflexivity.
  - vm_compute. reflexivity.
  - reflexivity.
Defined.

(** ** Promotion of a fulfilled load *)

Lemma settle_reactions (q : PromiseId) (s : Settled) (h : Heap) :
  reactions (settle q s h) = reactions h
  ∨ reactions (settle q s h) = filter (λ r, r.1 ≠ q) (reactions h).
Proof.
  unfold settle. destruct (promises h !! q) as [[t [s0|]]|]; auto.
  destruct s; auto.
Qed.

Lemma reaction_step (h : Heap) (a : Action) (p : PromiseId) (k : MapId * string) :
  WF h → (p, k) ∈ reactions h →
  (p, k) ∈ reactions (step h a)
  ∨ ∃ s, promiseState (step h a) p = Some (Some s).
Proof.
  intros Hwf Hin. destruct (wf_reactions h Hwf p k Hin) as [Hpend _].
  destruct a as [lf url cache | q s |]; simpl.
  - left. destruct (loadCached_reactions lf url cache h) as [-> | [k' ->]]; [done|].
    apply elem_of_app. by left.
  - destruct (decide (q = p)) as [-> | Hne].
    + right. exists s. by apply settle_pending.
    + left. destruct (settle_reactions q s h) as [-> | ->]; [done|].
      apply list_elem_of_filter. split; [simpl; congruence | done].
  - left. unfold runJob. by destruct (jobs h) as [|[k0 v0] js].
Qed.

(** The callback of a pending load stays registered. *)
Lemma reaction_stable (acts : list Action) (h : Heap) (p : PromiseId)
    (k : MapId * string) :
  WF h → (p, k) ∈ reactions h →
  promiseState (run acts h) p = Some None →
  (p, k) ∈ reactions (run acts h).
Proof.
  revert h. induction acts as [|a acts IH]; intros h Hwf Hin Hpend; [done|].
  rewrite run_cons in *.
  destruct (reaction_step h a p k Hwf Hin) as [Hstep | [s Hs]].
  - apply IH; [by apply WF_step | done | done].
  - rewrite (settled_run acts _ p s Hs) in Hpend. done.
Qed.

Lemma settle_fulfilled_queues (h : Heap) (p : PromiseId) (k : MapId * string)
    (v : Value) :
  promiseState h p = Some None → (p, k) ∈ reactions h →
  (k, v) ∈ jobs (settle p (Fulfilled v) h).
Proof.
  unfold promiseState, settle. intros Hpend Hin.
  destruct (promises h !! p) as [[t [s0|]]|]; try done. simpl.
  apply elem_of_app. right. apply list_elem_of_fmap. exists (p, k). split; [done|].
  by apply list_elem_of_filter.
Qed.

Lemma runJobs_other (js : list ((MapId * string) * Value)) (h : Heap)
    (k : MapId * string) :
  jobs h = js → k ∉ js.*1 →
  cells (run (replicate (List.length js) RunJob) h) !! k = cells h !! k.
Proof.
  revert h. induction js as [|[k0 v0] js IH]; intros h Hjobs Hk; [done|].
  change (run (replicate (List.length ((k0, v0) :: js)) RunJob) h)
    with (run (replicate (List.length js) RunJob) (runJob h)).
  unfold runJob. rewrite Hjobs.
  simpl in Hk. apply not_elem_of_cons in Hk as [Hne Hk].
  rewrite IH; [|done|done]. simpl. by rewrite lookup_insert_ne.
Qed.

Lemma runJobs_cells (js : list ((MapId * string) * Value)) (h : Heap)
    (k : MapId * string) (v : Value) :
  jobs h = js → NoDup js.*1 → (k, v) ∈ js →
  cells (run (replicate (List.length js) RunJob) h) !! k = Some (Resolved v).
Proof.
  revert h. induction js as [|[k0 v0] js IH]; intros h Hjobs Hnd Hin.
  - by apply elem_of_nil in Hin.
  - change (run (replicate (List.length ((k0, v0) :: js)) RunJob) h)
      with (run (replicate (List.length js) RunJob) (runJob h)).
    unfold runJob. rewrite Hjobs.
    simpl in Hnd. apply NoDup_cons in Hnd as [Hk0 Hnd].
    apply elem_of_cons in Hin as [Heq | Hin].
    + injection Heq as -> ->. rewrite runJobs_other; [|done|done].
      simpl. by rewrite lookup_insert_eq.
    + by apply IH.
Qed.

(** When a load with a registered callback is fulfilled and the microtask
    queue has run, its cell holds the value. *)
Lemma promotion_core (h : Heap) (p : PromiseId) (k : MapId * string) (v : Value) :
  WF h → (p, k) ∈ reactions h →
  cells (runAllJobs (settle p (Fulfilled v) h)) !! k = Some (Resolved v).
Proof.
  intros Hwf Hin. destruct (wf_reactions h Hwf p k Hin) as [Hpend _].
  pose proof (WF_settle p (Fulfilled v) h Hwf) as Hwf'.
  unfold runAllJobs. apply runJobs_cells.
  - done.
  - apply (wf_jobs_NoDup _ Hwf').
  - by apply settle_fulfilled_queues.
Qed.

(** X3. Cache promotion. After a call that misses and starts a load, and
    after anything else that leaves the load pending: once the load is
    fulfilled with [v] and the microtask queue has run, the cell holds [v]
    itself in place of the promise; if [v] is truthy, the next call with that
    URL and cache returns [v] directly and changes nothing. *)
Theorem fulfilled_load_is_promoted
    (lf lf' : LoadFunction) (url : string) (cache : CacheArg) (m : MapId)
    (h : Heap) (t : Task) (acts : list Action) (v : Value) :
  WF h →
  cacheOf cache = Some m →
  (∀ e, Map_get m url h = Some e → entryTruthy e = false) →
  lf url None = Starts t →
  promiseState (run acts (loadCached lf url cache h).2) (List.length (promises h))
  = Some None →
  Map_get m url
    (runAllJobs (settle (List.length (promises h)) (Fulfilled v)
                   (run acts (loadCached lf url cache h).2)))
  = Some (Resolved v)
  ∧ (truthy v = true →
     loadCached lf' url cache
       (runAllJobs (settle (List.length (promises h)) (Fulfilled v)
                      (run acts (loadCached lf url cache h).2)))
     = (Return (Resolved v),
        runAllJobs (settle (List.length (promises h)) (Fulfilled v)
                      (run acts (loadCached lf url cache h).2)))).
Proof.
  intros Hwf Hc Hfalsy Ht Hpend.
  pose proof (WF_loadCached lf url cache h Hwf) as Hwf1.
  rewrite (loadCached_miss lf url cache m h t Hc Hfalsy Ht) in *. simpl in *.
  match goal with
  | |- Map_get m url (runAllJobs (settle ?p _ (run acts ?h1))) = _ ∧ _ =>
      assert (cells (runAllJobs (settle p (Fulfilled v) (run acts h1))) !! (m, url)
              = Some (Resolved v)) as Hcell
  end.
  { apply promotion_core; [by apply WF_run|].
    apply reaction_stable; [done | | done].
    simpl. apply elem_of_app. right. by apply list_elem_of_singleton. }
  split; [done|]. intros Htruthy. by apply (loadCached_value_hit lf' url cache m).
Qed.

Lemma fulfilled_load_is_promoted_witness :
  Map_get DEFAULT_CACHE "https://x/a.json"
    (runAllJobs (settle 0 (Fulfilled (VString "ok"))
                   (run [Call textureLoadFunction "https://x/a.png" ArgUndefined]
                      (loadCached jsonLoadFunction "https://x/a.json" ArgUndefined
                         emptyHeap).2)))
  = Some (Resolved (VString "ok"))
  ∧ (truthy (VString "ok") = true →
     loadCached jsonLoadFunction "https://x/a.json" ArgUndefined
       (runAllJobs (settle 0 (Fulfilled (VString "ok"))
                      (run [Call textureLoadFunction "https://x/a.png" ArgUndefined]
                         (loadCached jsonLoadFunction "https://x/a.json" ArgUndefined
                            emptyHeap).2)))
     = (Return (Resolved (VString "ok")),
        runAllJobs (settle 0 (Fulfilled (VString "ok"))
                      (run [Call textureLoadFunction "https://x/a.png" ArgUndefined]
                         (loadCached jsonLoadFunction "https://x/a.json" ArgUndefined
                            emptyHeap).2)))).
Proof.
  apply (fulfilled_load_is_promoted jsonLoadFunction jsonLoadFunction
           "https://x/a.json" ArgUndefined DEFAULT_CACHE emptyHeap
           (FetchJson "https://x/a.json" None)).
  - apply WF_no_callbacks.
  - reflexivity.
  - intros e He. vm_compute in He. discriminate.
  - reflexivity.
  - vm_compute. reflexivity.
Defined.

(** ** From the URL to the cached texture *)

(** X4. End to end for an image URL. A first [loadTextureData] call for a URL
    with a PNG or WebP marker and no cached entry starts [loadImage] without
    headers; when that body ends with a texture and the callbacks have run, the
    next call with the same URL and cache returns that texture itself, without
    another load. *)
Theorem image_load_end_to_end (b : Browser) (g : GeotiffLib) (url : string)
    (cache : CacheArg) (m : MapId) (h : Heap) (w w' : World) (td : TextureData) :
  WF h →
  cacheOf cache = Some m →
  (∀ e, Map_get m url h = Some e → entryTruthy e = false) →
  hasImageMarker url →
  loadImage b url None w = (inr td, w') →
  (settleTask b g (List.length (promises h)) w (loadTextureData url cache h).2).2 = w'
  ∧ loadTextureData url cache
      (runAllJobs
         (settleTask b g (List.length (promises h)) w (loadTextureData url cache h).2).1)
    = (Return (Resolved (VTexture td)),
       runAllJobs
         (settleTask b g (List.length (promises h)) w (loadTextureData url cache h).2).1).
Proof.
  intros Hwf Hc Hfalsy Himg Hload. unfold loadTextureData.
  pose proof (WF_loadCached textureLoadFunction url cache h Hwf) as Hwf1.
  rewrite (loadCached_miss textureLoadFunction url cache m h (LoadImage url None)
             Hc Hfalsy (dispatch_image url None Himg)) in *.
  unfold settleTask. simpl. rewrite list_lookup_middle by done.
  unfold runTask, Env.bind, Env.ret. rewrite Hload. simpl.
  split; [done|].
  apply (loadCached_value_hit textureLoadFunction url cache m); [done| |done].
  apply promotion_core; [done|].
  simpl. apply elem_of_app. right. by apply list_elem_of_singleton.
Qed.

Lemma image_load_end_to_end_witness :
  (settleTask goodBrowser unreachableLib 0 (mkWorld [] [])
     (loadTextureData "https://x/a.png" ArgUndefined emptyHeap).2).2
  = mkWorld [Uint8ClampedArray (pixels servedImage)] []
  ∧ loadTextureData "https://x/a.png" ArgUndefined
      (runAllJobs
         (settleTask goodBrowser unreachableLib 0 (mkWorld [] [])
            (loadTextureData "https://x/a.png" ArgUndefined emptyHeap).2).1)
    = (Return (Resolved (VTexture (mkTextureData 0 2 2))),
       runAllJobs
         (settleTask goodBrowser unreachableLib 0 (mkWorld [] [])
            (loadTextureData "https://x/a.png" ArgUndefined emptyHeap).2).1).
Proof.
  apply (image_load_end_to_end goodBrowser unreachableLib "https://x/a.png"
           ArgUndefined DEFAULT_CACHE emptyHeap (mkWorld [] [])).
  - apply WF_no_callbacks.
  - reflexivity.
  - intros e He. vm_compute in He. discriminate.
  - left. apply includes_spec. reflexivity.
  - reflexivity.
Defined.

(** ** One default cache for both wrappers *)

(** X5. [loadTextureData] and [loadJson] share the default cache, keyed by
    the URL alone. When [loadJson(url)] has missed and started its load,
    [loadTextureData(url)] - with no cache argument - returns
    that JSON promise and does not dispatch on the URL at all, so it neither
    starts a decoder nor throws for an unsupported format. *)
Theorem default_cache_is_shared (url : string) (h : Heap) :
  (∀ e, Map_get DEFAULT_CACHE url h = Some e → entryTruthy e = false) →
  (loadJson url ArgUndefined h).1 = Return (InFlight (List.length (promises h)))
  ∧ loadTextureData url ArgUndefined (loadJson url ArgUndefined h).2
    = (Return (InFlight (List.length (promises h))), (loadJson url ArgUndefined h).2)
  ∧ promises (loadJson url ArgUndefined h).2
    = promises h ++ [(FetchJson url None, None)].
Proof.
  intros Hfalsy. unfold loadJson, loadTextureData.
  rewrite (loadCached_miss jsonLoadFunction url ArgUndefined DEFAULT_CACHE h
             (FetchJson url None) eq_refl Hfalsy eq_refl).
  simpl. split; [done|]. split; [|done].
  apply (loadCached_promise_hit textureLoadFunction url ArgUndefined DEFAULT_CACHE);
    [done|].
  simpl. by rewrite lookup_insert_eq.
Qed.

Lemma default_cache_is_shared_witness :
  (loadJson "https://x/a.xyz" ArgUndefined emptyHeap).1 = Return (InFlight 0)
  ∧ loadTextureData "https://x/a.xyz" ArgUndefined
      (loadJson "https://x/a.xyz" ArgUndefined emptyHeap).2
    = (Return (InFlight 0), (loadJson "https://x/a.xyz" ArgUndefined emptyHeap).2)
  ∧ promises (loadJson "https://x/a.xyz" ArgUndefined emptyHeap).2
    = [] ++ [(FetchJson "https://x/a.xyz" None, None)].
Proof.
  apply (default_cache_is_shared "https://x/a.xyz" emptyHeap).
  intros e He. vm_compute in He. discriminate.
Defined.

(** ** What the caches hold *)

Lemma exported_loader_url (lf : LoadFunction) (url : string) (t : Task) :
  lf = textureLoadFunction ∨ lf = jsonLoadFunction →
  lf url None = Starts t → taskUrl t = url.
Proof.
  intros [-> | ->]; unfold textureLoadFunction, jsonLoadFunction.
  - destruct (includes url ".png" || includes url ".webp"
              || includes url "image/png" || includes url "image/webp").
    + by intros [= <-].
    + destruct (includes url ".tif" || includes url "image/tif"); [|done].
      by intros [= <-].
  - by intros [= <-].
Qed.

Lemma cacheSound_extend (h h' : Heap) (ps' : list (Task * option Settled)) :
  cacheSound h → promises h' = promises h ++ ps' → cells h' = cells h →
  cacheSound h'.
Proof.
  intros Hs Hp Hc m url e He. rewrite Hc in He. specialize (Hs m url e He).
  rewrite Hp. destruct e as [v|p].
  - destruct Hs as (p & t & Hl & Hu). exists p, t.
    split; [by apply lookup_app_l_Some | done].
  - destruct Hs as (t & s & Hl & Hu). exists t, s.
    split; [by apply lookup_app_l_Some | done].
Qed.

Lemma cacheSound_missPath (lf : LoadFunction) (url : string) (m : MapId) (h : Heap) :
  lf = textureLoadFunction ∨ lf = jsonLoadFunction →
  cacheSound h → cacheSound (missPath lf url m h).2.
Proof.
  intros Hlf Hs. rewrite missPath_heap. destruct (lf url None) as [e|t] eqn:Ht.
  - eapply (cacheSound_extend h _ []); [done | by rewrite app_nil_r | done].
  - intros m' url' e He. simpl in *.
    destruct (decide ((m, url) = (m', url'))) as [Heq | Hne].
    + injection Heq as <- <-. rewrite lookup_insert_eq in He. injection He as <-.
      exists t, None. split; [by apply list_lookup_middle|].
      by apply (exported_loader_url lf).
    + rewrite lookup_insert_ne in He by done. specialize (Hs m' url' e He).
      destruct e as [v|p].
      * destruct Hs as (p & t' & Hl & Hu). exists p, t'.
        split; [by apply lookup_app_l_Some | done].
      * destruct Hs as (t' & s & Hl & Hu). exists t', s.
        split; [by apply lookup_app_l_Some | done].
Qed.

Lemma cacheSound_step (h : Heap) (a : Action) :
  exportedCall a → WF h → cacheSound h → cacheSound (step h a).
Proof.
  intros Ha Hwf Hs. destruct a as [lf url cache | q s |]; simpl in *.
  - assert (∀ m, cacheSound
                   (match Map_get m url h with
                    | Some e => if entryTruthy e then (Return e, h)
                                else missPath lf url m h
                    | None => missPath lf url m h
                    end).2) as Hcached.
    { intros m. pose proof (cacheSound_missPath lf url m h Ha Hs) as Hmiss.
      destruct (Map_get m url h) as [e|]; [destruct (entryTruthy e)|]; done. }
    destruct cache as [| |m|o].
    + rewrite (loadCached_cases lf url ArgUndefined DEFAULT_CACHE h eq_refl).
      apply Hcached.
    + rewrite bypass_heap. destruct (invoke_frame lf url h) as (Hc & _).
      eapply cacheSound_extend; [done | apply invoke_promises | done].
    + rewrite (loadCached_cases lf url (ArgMap m) m h eq_refl). apply Hcached.
    + done.
  - unfold settle. destruct (promises h !! q) as [[tq [s0|]]|] eqn:Hq; try done.
    assert (cacheSound (mkHeap (<[q := (tq, Some s)]> (promises h)) (cells h)
                          (reactions h) (jobs h) (calls h))) as Hs'.
    { intros m url e He. simpl in *. specialize (Hs m url e He).
      destruct e as [v|p].
      - destruct Hs as (p & t & Hl & Hu). exists p, t. split; [|done].
        rewrite list_lookup_insert_ne; [done|]. intros ->. rewrite Hq in Hl. done.
      - destruct Hs as (t & s1 & Hl & Hu). destruct (decide (q = p)) as [-> | Hne].
        + rewrite Hq in Hl. injection Hl as <- <-. exists tq, (Some s).
          split; [|done]. apply list_lookup_insert_eq. by eapply lookup_lt_Some.
        + exists t, s1. split; [|done]. by rewrite list_lookup_insert_ne. }
    destruct s; exact Hs'.
  - unfold runJob. destruct (jobs h) as [|[[m0 url0] v0] js] eqn:Hjobs; [done|].
    intros m url e He. simpl in *.
    destruct (decide ((m0, url0) = (m, url))) as [Heq | Hne].
    + injection Heq as -> ->. rewrite lookup_insert_eq in He. injection He as <-.
      destruct (wf_jobs h Hwf (m, url) v0) as (p & Hcell & Hful).
      { rewrite Hjobs. by left. }
      destruct (Hs m url _ Hcell) as (t & s & Hl & Hu).
      unfold promiseState in Hful. rewrite Hl in Hful. simpl in Hful.
      injection Hful as ->. by exists p, t.
    + rewrite lookup_insert_ne in He by done. exact (Hs m url e He).
Qed.

Lemma cacheSound_run (acts : list Action) (h : Heap) :
  Forall exportedCall acts → WF h → cacheSound h → cacheSound (run acts h).
Proof.
  revert h. induction acts as [|a acts IH]; intros h Hacts Hwf Hs; [done|].
  apply Forall_cons in Hacts as [Ha Hacts]. rewrite run_cons.
  apply IH; [done | by apply WF_step | by apply cacheSound_step].
Qed.

(** X6. The caches never mix URLs up. Starting with empty caches and using
    the two exported wrappers only, whatever a cell holds under a URL is a
    load of that very URL: a promise stored there belongs to a task started
    with that URL, and a value stored there is the value that such a task's
    promise was fulfilled with. *)
Theorem cache_entries_belong_to_their_url (acts : list Action) (m : MapId)
    (url : string) (e : Entry) :
  Forall exportedCall acts →
  cells (run acts emptyHeap) !! (m, url) = Some e →
  match e with
  | InFlight p =>
      ∃ t s, promises (run acts emptyHeap) !! p = Some (t, s) ∧ taskUrl t = url
  | Resolved v =>
      ∃ p t, promises (run acts emptyHeap) !! p = Some (t, Some (Fulfilled v))
             ∧ taskUrl t = url
  end.
Proof.
  intros Hacts He.
  assert (cacheSound (run acts emptyHeap)) as Hs.
  { apply cacheSound_run; [done | apply WF_no_callbacks |].
    intros m' url' e' He'. simpl in He'. by rewrite lookup_empty in He'. }
  exact (Hs m url e He).
Qed.

Lemma cache_entries_belong_to_their_url_witness :
  ∃ p t,
    promises (run [Call jsonLoadFunction "https://x/a.json" ArgUndefined;
                   Call textureLoadFunction "https://x/b.png" ArgUndefined;
                   Settle 0 (Fulfilled VNull); RunJob] emptyHeap) !! p
    = Some (t, Some (Fulfilled VNull))
    ∧ taskUrl t = "https://x/a.json".
Proof.
  apply (cache_entries_belong_to_their_url
           [Call jsonLoadFunction "https://x/a.json" ArgUndefined;
            Call textureLoadFunction "https://x/b.png" ArgUndefined;
            Settle 0 (Fulfilled VNull); RunJob]
           DEFAULT_CACHE "https://x/a.json" (Resolved VNull)).
  - apply Forall_cons. split; [right; reflexivity|].
    apply Forall_cons. split; [left; reflexivity|].
    apply Forall_cons. split; [exact I|].
    apply Forall_cons. split; [exact I|]. apply Forall_nil_2.
  - vm_compute. reflexivity.
Defined.

Lemma bypass_never_populates_witness :
  jobs (settle 0 (Fulfilled VNull)
          (run [Call jsonLoadFunction "https://x/a.json" ArgUndefined]
             (loadCached jsonLoadFunction "https://x/a.json" ArgFalse emptyHeap).2))
  = jobs (run [Call jsonLoadFunction "https://x/a.json" ArgUndefined]
            (loadCached jsonLoadFunction "https://x/a.json" ArgFalse emptyHeap).2)
  ∧ cells (settle 0 (Fulfilled VNull)
             (run [Call jsonLoadFunction "https://x/a.json" ArgUndefined]
                (loadCached jsonLoadFunction "https://x/a.json" ArgFalse emptyHeap).2))
    = cells (run [Call jsonLoadFunction "https://x/a.json" ArgUndefined]
               (loadCached jsonLoadFunction "https://x/a.json" ArgFalse emptyHeap).2).
Proof.
  apply (bypass_never_populates jsonLoadFunction "https://x/a.json" emptyHeap
           (FetchJson "https://x/a.json" None)).
  - apply WF_no_callbacks.
  - reflexivity.
Defined.

Lemma unsupported_format_throws_witness :
  loadTextureData "https://x/a.xyz" (ArgMap 3) emptyHeap
  = (Throw (Error "Unsupported data format" None),
     mkHeap (promises emptyHeap) (cells emptyHeap) (reactions emptyHeap)
       (jobs emptyHeap) (calls emptyHeap ++ [("https://x/a.xyz", None)])).
Proof.
  apply (unsupported_format_throws "https://x/a.xyz" (ArgMap 3) emptyHeap).
  - rewrite <- imageMarker_test. vm_compute. discriminate.
  - rewrite <- tiffMarker_test. vm_compute. discriminate.
  - intros m e _ He. vm_compute in He. discriminate.
  - discriminate.
Defined.

Lemma loadJson_returns_witness :
  ∃ e, (loadJson "https://x/a.xyz" ArgFalse emptyHeap).1 = Return e.
Proof.
  apply (loadJson_returns "https://x/a.xyz" ArgFalse emptyHeap). discriminate.
Defined.

(** * Further properties of the decoders *)

(** ** Nodata masker *)

Lemma maskFloat_idempotent (s x : float) :
  maskFloat s (maskFloat s x) = maskFloat s x.
Proof.
  unfold maskFloat. destruct (nearNodata x s) eqn:Hx.
  - by destruct (nearNodata PrimFloat.nan s).
  - by rewrite Hx.
Qed.

Lemma maskByte_idempotent (s : float) (z : Z) :
  maskByte s (maskByte s z) = maskByte s z.
Proof.
  unfold maskByte. destruct (nearNodata (TypedArray.byteToNumber z) s) eqn:Hz.
  - by destruct (nearNodata (TypedArray.byteToNumber 0) s).
  - by rewrite Hz.
Qed.

Lemma masked_idempotent (s : float) (a : TextureDataArray) :
  masked s (masked s a) = masked s a.
Proof.
  destruct a as [l|l|l]; simpl; f_equal; rewrite <- list_fmap_compose;
    apply list_fmap_ext; intros i x _; simpl;
    auto using maskByte_idempotent, maskFloat_idempotent.
Qed.

(** X8. Masking is idempotent: masking the output of [maskData] again with the
    same sentinel gives an array with the same contents (what was replaced
    stays replaced, what was kept is kept). *)
Theorem maskData_idempotent (st : TypedArray.Store) (data : Ref)
    (a : TextureDataArray) (s : float) :
  st !! data = Some a →
  ∃ out,
    maskData st data (Some s) = Some (List.length st, st ++ [out])
    ∧ maskData (st ++ [out]) (List.length st) (Some s)
      = Some (S (List.length st), st ++ [out; out]).
Proof.
  intros Ha. exists (masked s a). unfold maskData. rewrite Ha. simpl.
  rewrite maskLoop_masked. split; [done|].
  rewrite list_lookup_middle by done. simpl.
  rewrite maskLoop_masked, masked_idempotent. unfold TypedArray.alloc.
  by rewrite length_app, Nat.add_1_r, <- app_assoc.
Qed.

Lemma maskData_idempotent_witness :
  ∃ out,
    maskData [sampleRaster] 0 (Some (-9999)%float) = Some (1, [sampleRaster] ++ [out])
    ∧ maskData ([sampleRaster] ++ [out]) 1 (Some (-9999)%float)
      = Some (2, [sampleRaster] ++ [out; out]).
Proof.
  exact (maskData_idempotent [sampleRaster] 0 sampleRaster (-9999)%float eq_refl).
Defined.

Lemma maskData_bytes_store_zero_witness :
  ∃ out,
    maskData [Uint8ClampedArray [7; 255; 9]%Z] 0 (Some 255%float)
    = Some (1, [Uint8ClampedArray [7; 255; 9]%Z] ++ [out])
    ∧ element out 1 = Some (inl 0%Z).
Proof.
  apply (maskData_bytes_store_zero [Uint8ClampedArray [7; 255; 9]%Z] 0
           (Uint8ClampedArray [7; 255; 9]%Z) 255%float 1 255%float).
  - reflexivity.
  - reflexivity.
  - vm_compute. reflexivity.
  - vm_compute. reflexivity.
Defined.

(** ** Image decoder *)

Lemma append_assoc_string (a b c : string) : (a +:+ b) +:+ c = a +:+ b +:+ c.
Proof.
  induction a as [|x a IH]; [done|]. rewrite !append_String. by rewrite IH.
Qed.

Lemma append_empty_r (a : string) : a +:+ "" = a.
Proof. induction a as [|x a IH]; [done|]. rewrite append_String. by rewrite IH. Qed.

(** X10. A response that is not ok. With headers, when the fetch answers with
    a status outside 200-299, [loadImage] rejects with the error
    "Failed to fetch image <url>: <statusText>", which has no cause; nothing
    is decoded, no object URL is created and no array is allocated. *)
Theorem loadImage_http_error (b : Browser) (url : string) (hs : Headers)
    (w : World) (response : Response) :
  fetch b url (Some hs) = inr response →
  ok response = false →
  loadImage b url (Some hs) w
  = (inl (Error ("Failed to fetch image " +:+ url +:+ ": " +:+ statusText response) None),
     w)
  ∧ Contains ("Failed to fetch image " +:+ url +:+ ": " +:+ statusText response) url
  ∧ Contains ("Failed to fetch image " +:+ url +:+ ": " +:+ statusText response)
      (statusText response).
Proof.
  intros Hf Hok. split; [|split].
  - run_async. by rewrite Hf, Hok.
  - apply Contains_append_middle.
  - exists ("Failed to fetch image " +:+ url +:+ ": "), "".
    by rewrite append_empty_r, !append_assoc_string.
Qed.

Lemma loadImage_http_error_witness :
  loadImage notFoundBrowser "https://x/a.png" (Some authHeaders) (mkWorld [] [])
  = (inl (Error ("Failed to fetch image " +:+ "https://x/a.png" +:+ ": "
                 +:+ statusText (mkResponse false "Not Found" (inr 7)
                                   (inl (External "SyntaxError")))) None),
     mkWorld [] [])
  ∧ Contains ("Failed to fetch image " +:+ "https://x/a.png" +:+ ": "
              +:+ statusText (mkResponse false "Not Found" (inr 7)
                                (inl (External "SyntaxError"))))
      "https://x/a.png"
  ∧ Contains ("Failed to fetch image " +:+ "https://x/a.png" +:+ ": "
              +:+ statusText (mkResponse false "Not Found" (inr 7)
                                (inl (External "SyntaxError"))))
      (statusText (mkResponse false "Not Found" (inr 7) (inl (External "SyntaxError")))).
Proof.
  apply (loadImage_http_error notFoundBrowser "https://x/a.png" authHeaders
           (mkWorld [] [])).
  - reflexivity.
  - reflexivity.
Defined.

(** X11. What a fulfilled [loadImage] returns. Whenever [loadImage] fulfils,
    with or without headers, the image was decoded from some source URL
    (the given URL itself when there are no headers), and the texture is a
    new [Uint8ClampedArray] holding exactly the pixels read back from the
    canvas, with the width and height of that [ImageData]. *)
Theorem loadImage_fulfils_with_pixels (b : Browser) (url : string)
    (headers : option Headers) (w w' : World) (t : TextureData) :
  loadImage b url headers w = (inr t, w') →
  ∃ src iw ih img,
    (headers = None → src = url)
    ∧ decode b src = inr (iw, ih)
    ∧ getContext2d b iw ih = true
    ∧ getImageData b src iw ih = inr img
    ∧ t = mkTextureData (List.length (store w)) (imageWidth img) (imageHeight img)
    ∧ store w' = store w ++ [Uint8ClampedArray (pixels img)].
Proof.
  destruct headers as [hs|]; run_async.
  - destruct (fetch b url (Some hs)) as [e|response]; [done|].
    destruct (ok response); simpl; [|done].
    destruct (blob response) as [e|bl]; [done|].
    destruct (decode b (createObjectURL b bl)) as [e|[iw ih]] eqn:Hd; simpl; [done|].
    destruct (getContext2d b iw ih) eqn:Hc; simpl; [|done].
    destruct (getImageData b (createObjectURL b bl) iw ih) as [e|img] eqn:Hi;
      simpl; [done|].
    intros [= <- <-]. by exists (createObjectURL b bl), iw, ih, img.
  - destruct (decode b url) as [e|[iw ih]] eqn:Hd; simpl; [done|].
    destruct (getContext2d b iw ih) eqn:Hc; simpl; [|done].
    destruct (getImageData b url iw ih) as [e|img] eqn:Hi; simpl; [done|].
    intros [= <- <-]. by exists url, iw, ih, img.
Qed.

Lemma loadImage_fulfils_with_pixels_witness :
  ∃ src iw ih img,
    (@None Headers = None → src = "https://x/a.png")
    ∧ decode goodBrowser src = inr (iw, ih)
    ∧ getContext2d goodBrowser iw ih = true
    ∧ getImageData goodBrowser src iw ih = inr img
    ∧ mkTextureData 0 2 2
      = mkTextureData (List.length (store (mkWorld [] []))) (imageWidth img)
          (imageHeight img)
    ∧ store (mkWorld [Uint8ClampedArray (pixels servedImage)] [])
      = store (mkWorld [] []) ++ [Uint8ClampedArray (pixels img)].
Proof.
  apply (loadImage_fulfils_with_pixels goodBrowser "https://x/a.png" None
           (mkWorld [] []) (mkWorld [Uint8ClampedArray (pixels servedImage)] [])
           (mkTextureData 0 2 2)).
  reflexivity.
Defined.

Lemma loadImage_success_revokes_witness :
  ∃ blobUrl,
    events (mkWorld [Uint8ClampedArray (pixels servedImage)]
              [CreateObjectURL "blob:1"; RevokeObjectURL "blob:1"])
    = events (mkWorld [] []) ++ [CreateObjectURL blobUrl; RevokeObjectURL blobUrl].
Proof.
  apply (loadImage_success_revokes goodBrowser "https://x/a.png" authHeaders
           (mkWorld [] []) _ (mkTextureData 0 2 2)).
  reflexivity.
Defined.

Lemma loadImage_decode_failure_revokes_witness :
  loadImage noDecodeBrowser "https://x/a.png" (Some authHeaders) (mkWorld [] [])
  = (inl (decodeError "https://x/a.png" (External "EncodingError")),
     mkWorld (store (mkWorld [] []))
       (events (mkWorld [] [])
        ++ [CreateObjectURL (createObjectURL noDecodeBrowser 7);
            RevokeObjectURL (createObjectURL noDecodeBrowser 7)])).
Proof.
  apply (loadImage_decode_failure_revokes noDecodeBrowser "https://x/a.png"
           authHeaders (mkWorld [] []) okResponse 7 (External "EncodingError")).
  - reflexivity.
  - reflexivity.
  - reflexivity.
  - reflexivity.
Defined.

(** ** Raster decoder *)

Lemma loadGeotiff_success_witness :
  loadGeotiff floatRasterLib "https://x/a.tif" (Some authHeaders) (mkWorld [] [])
  = (inr (mkTextureData 1 3 1),
     mkWorld [Float32Array [1.5%float; (-9999)%float; 3%float];
              masked (-9999)%float (Float32Array [1.5%float; (-9999)%float; 3%float])]
       []).
Proof.
  apply (loadGeotiff_success floatRasterLib "https://x/a.tif" (Some authHeaders)
           (mkWorld [] []) 0 0).
  - reflexivity.
  - reflexivity.
  - reflexivity.
  - reflexivity.
  - reflexivity.
Defined.

Lemma loadGeotiff_no_nodata_witness :
  loadGeotiff byteRasterLib "https://x/a.tif" None (mkWorld [] [])
  = (inr (mkTextureData 0 3 1), mkWorld [Uint8Array [1; 2; 3]%Z] []).
Proof.
  apply (loadGeotiff_no_nodata byteRasterLib "https://x/a.tif" None (mkWorld [] [])
           0 0 (Uint8Array [1; 2; 3]%Z)).
  - reflexivity.
  - reflexivity.
  - reflexivity.
  - reflexivity.
  - reflexivity.
Defined.

(** X17. An array of another element type. When [readRasters] gives a typed
    array that is none of [Uint8Array], [Uint8ClampedArray], [Float32Array],
    [loadGeotiff] rejects with the error "Unsupported data format" (no cause,
    the URL is not named), and no array is allocated or masked. *)
Theorem loadGeotiff_unsupported_array (g : GeotiffLib) (url : string)
    (headers : option Headers) (w : World) (geotiff : Handle) (image : GeoImage)
    (kind : string) :
  getLibrary g = inr tt →
  fromUrl g url (fromUrlOptions headers) = inr geotiff →
  getImage g geotiff 0 = inr image →
  readRasters g image = inr (OtherTypedArray kind) →
  loadGeotiff g url headers w = (inl (Error "Unsupported data format" None), w).
Proof.
  intros Hlib Hfrom Himg Hread. run_async. rewrite Hlib.
  destruct headers as [hs|]; unfold fromUrlOptions in Hfrom; simpl in Hfrom;
    by rewrite Hfrom, Himg, Hread.
Qed.

Lemma loadGeotiff_unsupported_array_witness :
  loadGeotiff uint16RasterLib "https://x/a.tif" None (mkWorld [] [])
  = (inl (Error "Unsupported data format" None), mkWorld [] []).
Proof.
  apply (loadGeotiff_unsupported_array uint16RasterLib "https://x/a.tif" None
           (mkWorld [] []) 0 0 "Uint16Array").
  - reflexivity.
  - reflexivity.
  - reflexivity.
  - reflexivity.
Defined.

(** X18. The headers object that the custom fetch of [loadGeotiff] passes
    on. Every header the caller supplied is in it, with the caller's value,
    whatever the request's own headers are. When the request's headers are a
    plain object, those the caller did not name are kept as they are; when
    they are a [Headers] instance, or absent, the object holds the caller's
    headers only: the request's own headers are dropped. *)
Theorem customFetch_merged_headers (headers : Headers) :
  (∀ init name value,
     headers !! name = Some value →
     customFetch headers init !! name = Some (Text value))
  ∧ (∀ entries name,
       headers !! name = None →
       customFetch headers (Some (InitRecord entries)) !! name
       = Text <$> entries !! name)
  ∧ (∀ entries, customFetch headers (Some (InitHeaders entries)) = Text <$> headers)
  ∧ customFetch headers None = Text <$> headers.
Proof.
  unfold customFetch. split; [|split; [|split]].
  - intros init name value Hv. apply lookup_union_Some_l.
    by rewrite lookup_fmap, Hv.
  - intros entries name Hn. simpl. rewrite lookup_union_r.
    + by rewrite lookup_fmap.
    + by rewrite lookup_fmap, Hn.
  - intros entries. simpl. apply (right_id_L ∅ (∪)).
  - simpl. apply (right_id_L ∅ (∪)).
Qed.

Example customFetch_example :
  customFetch authHeaders
    (Some (InitPairs [["Range"; "bytes=0-1023"]; ["Authorization"; "none"]]))
  = {[ "Authorization" := Text "Bearer t";
       "0" := Items ["Range"; "bytes=0-1023"];
       "1" := Items ["Authorization"; "none"] ]}.
Proof. vm_compute. reflexivity. Qed.
